(** * Loan calculator: the amortization engine of [loan_app.py]

    A shallow embedding of [calculate_loan], [create_amortization_table] and
    [get_translation], and the properties of the schedule they compute.

    The Python functions are duck-typed over their numeric arguments: the same
    text runs on binary64 [float]s (what the interface passes) and on exact
    [fractions.Fraction]s.  The embedding follows that: the engine is written
    once over an interface of the operations the source applies to its numbers
    ([Number]), and instantiated with the kernel's binary64 floats
    ([Binary64]) and with canonical rationals ([Exact]). *)

From Stdlib Require Import ZArith List String Ascii Bool Lia.
From Stdlib Require Import DecimalString.
From Stdlib Require Import Floats.
From Stdlib Require Import QArith Qcanon.
Import ListNotations.

Set Warnings "-inexact-float".

Local Open Scope Z_scope.
Local Open Scope string_scope.
Local Open Scope list_scope.

(** ** Exceptions and results *)

(** The exceptions the engine can raise. [ValueError] is the only one it
    raises itself (line 23); the others come from the arithmetic and from the
    dictionary lookup of [get_translation]. *)
Inductive exn : Type :=
| ValueError (msg : string)
| ZeroDivisionError
| OverflowError
| KeyError (key : string).

Inductive result (A : Type) : Type :=
| Ok (a : A)
| Raise (e : exn).
Arguments Ok {A} a.
Arguments Raise {A} e.

Definition bind {A B : Type} (r : result A) (k : A -> result B) : result B :=
  match r with
  | Ok a => k a
  | Raise e => Raise e
  end.

Notation "x <- e ;; k" := (bind e (fun x => k))
  (at level 61, e at next level, right associativity).

Definition is_ok {A : Type} (r : result A) : bool :=
  match r with Ok _ => true | Raise _ => false end.


(** What arithmetic raises: never the engine's own [ValueError]. *)
Definition arithmetic_error (e : exn) : Prop :=
  e = ZeroDivisionError \/ e = OverflowError.

(** ** Session state and translations *)

(** The two options of the language select box (line 181). *)
Inductive Language : Type := Francais | English.

(** The part of [st.session_state] the engine reads. *)
Record session_state : Type := { language : Language }.

(** One entry of the [translations] dictionary: the inner dictionary has
    exactly the keys ["Français"] and ["English"]. *)
Record entry : Type := { fr : string; en : string }.

Definition select (l : Language) (e : entry) : string :=
  match l with Francais => fr e | English => en e end.

(** The [translations] dictionary (lines 133-160), in source order. A key
    written twice keeps its last value; both ["Assurance"] entries agree. *)
Definition translations : list (string * entry) :=
  [ ("Calculateur de Prêt 💸",
      {| fr := "Calculateur de Prêt 💸"; en := "Loan Calculator 💸" |});
    ("Calculez facilement les détails de votre prêt.",
      {| fr := "Calculez facilement les détails de votre prêt.";
         en := "Easily calculate the details of your loan." |});
    ("Paramètres du Prêt", {| fr := "Paramètres du Prêt"; en := "Loan Parameters" |});
    ("Montant du Prêt (€)", {| fr := "Montant du Prêt (€)"; en := "Loan Amount (€)" |});
    ("TAEG (%)", {| fr := "TAEG (%)"; en := "APR (%)" |});
    ("Durée (mois)", {| fr := "Durée (mois)"; en := "Duration (months)" |});
    ("Assurance", {| fr := "Assurance"; en := "Insurance" |});
    ("Montant Assurance par mois (€)",
      {| fr := "Montant Assurance par mois (€)"; en := "Monthly Insurance Amount (€)" |});
    ("Calculer", {| fr := "Calculer"; en := "Calculate" |});
    ("Mensualité", {| fr := "Mensualité"; en := "Monthly Payment" |});
    ("Coût Total", {| fr := "Coût Total"; en := "Total Cost" |});
    ("Total Remboursé", {| fr := "Total Remboursé"; en := "Total Paid" |});
    ("Coût en % du Prêt", {| fr := "Coût en % du Prêt"; en := "Cost as % of Loan" |});
    ("Coût Assurance Total", {| fr := "Coût Assurance Total"; en := "Total Insurance Cost" |});
    ("Afficher le tableau d'amortissement",
      {| fr := "Afficher le tableau d'amortissement"; en := "Show Amortization Table" |});
    ("Mois", {| fr := "Mois"; en := "Month" |});
    ("Capital Restant Du en Début de Période",
      {| fr := "Capital Restant Du en Début de Période";
         en := "Remaining Principal at Start of Period" |});
    ("Capital Amorti", {| fr := "Capital Amorti"; en := "Principal Paid" |});
    ("Intérêts", {| fr := "Intérêts"; en := "Interest" |});
    ("Assurance", {| fr := "Assurance"; en := "Insurance" |});
    ("Total Echeance", {| fr := "Total Echeance"; en := "Total Due" |});
    ("Total", {| fr := "Total"; en := "Total" |});
    ("Les valeurs doivent être positives.",
      {| fr := "Les valeurs doivent être positives."; en := "Values must be positive." |});
    ("Ajustez les valeurs et cliquez sur 'Calculer' pour voir les détails de votre prêt. 💸",
      {| fr := "Ajustez les valeurs et cliquez sur 'Calculer' pour voir les détails de votre prêt. 💸";
         en := "Adjust the values and click 'Calculate' to see the details of your loan. 💸" |});
    ("Assurance (%)", {| fr := "Assurance (%)"; en := "Insurance (%)" |});
    ("Durée (années)", {| fr := "Durée (années)"; en := "Duration (years)" |}) ].

(** Dictionary lookup: the last binding of a key wins. *)
Fixpoint dict_get (d : list (string * entry)) (key : string) : option entry :=
  match d with
  | [] => None
  | (k, v) :: d' =>
      match dict_get d' key with
      | Some v' => Some v'
      | None => if String.eqb k key then Some v else None
      end
  end.

(** [get_translation] (lines 162-165): reads the selected language from the
    session state and indexes the dictionary twice. *)
Definition get_translation (st : session_state) (text_key : string) : result string :=
  let selected_language := language st in
  match dict_get translations text_key with
  | Some e => Ok (select selected_language e)
  | None => Raise (KeyError text_key)
  end.

(** ** The numbers of the engine *)

(** The operations the source applies to its numeric arguments, with Python's
    failure modes: [/] raises [ZeroDivisionError] on a zero divisor, [**] and
    the coercion of an [int] operand can raise [OverflowError]. [lit] is an
    integer literal of the source ([0], [1], [12], [100]) met in mixed
    arithmetic; [isna] is pandas' missing-value test, which [Series.sum]
    skips; [format_2f] is the format specification [",.2f"]. The laws are
    the facts about these operations the proofs rely on. *)
Class Number (F : Type) : Type := {
  lit : Z -> F;
  of_int : Z -> result F;
  add : F -> F -> F;
  sub : F -> F -> F;
  mul : F -> F -> F;
  truediv : F -> F -> result F;
  pow : F -> Z -> result F;
  leb : F -> F -> bool;
  ltb : F -> F -> bool;
  isna : F -> bool;
  format_2f : F -> string;
  ltb_leb : forall x y, ltb x y = true -> leb x y = true;
  ltb_zero : ltb (lit 0) (lit 0) = false;
  truediv_defined : forall x y, leb y (lit 0) = false -> exists z, truediv x y = Ok z;
  truediv_raises : forall x y e, truediv x y = Raise e -> arithmetic_error e;
  pow_raises : forall x n e, pow x n = Raise e -> arithmetic_error e;
  of_int_raises : forall n e, of_int n = Raise e -> arithmetic_error e;
  pow_coerces : forall x n y, pow x n = Ok y -> exists f, of_int n = Ok f;
  format_2f_nonempty : forall x, format_2f x <> ""
}.

(** ** Tables *)

(** A cell of a [DataFrame]: a Python [int], a number or a [str]. *)
Inductive cell (F : Type) : Type :=
| CInt (n : Z)
| CNum (x : F)
| CStr (s : string).
Arguments CInt {F} n.
Arguments CNum {F} x.
Arguments CStr {F} s.

Record DataFrame (F : Type) : Type := {
  columns : list string;
  rows : list (list (cell F))
}.
Arguments columns {F} d.
Arguments rows {F} d.

(** One element of [data] (line 58):
    [[month, capital_beginning, principal_payment, interest_payment,
      insurance_amount, total_payment]]. *)
Record row (F : Type) : Type := {
  month : Z;
  capital_beginning : F;
  principal_payment : F;
  interest_payment : F;
  insurance : F;
  total_payment : F
}.
Arguments month {F} r.
Arguments capital_beginning {F} r.
Arguments principal_payment {F} r.
Arguments interest_payment {F} r.
Arguments insurance {F} r.
Arguments total_payment {F} r.

(** The dictionary [calculate_loan] returns (lines 37-44). *)
Record loan_data (F : Type) : Type := {
  monthly_payment : F;
  total_cost : F;
  total_paid : F;
  cost_percentage : F;
  insurance_total_cost : F;
  amortization_table : DataFrame F
}.
Arguments monthly_payment {F} l.
Arguments total_cost {F} l.
Arguments total_paid {F} l.
Arguments cost_percentage {F} l.
Arguments insurance_total_cost {F} l.
Arguments amortization_table {F} l.

(** [range(a, b)]. *)
Definition range (a b : Z) : list Z :=
  map (fun i => a + Z.of_nat i) (seq 0 (Z.to_nat (b - a))).

Section Engine.

Context {F : Type} `{Number F}.

(** *** [create_amortization_table], lines 46-86 *)

(** The body of the [for] loop (lines 51-58); the state is
    [(remaining_balance, data)]. *)
Definition loop_body (monthly_rate monthly_payment insurance_amount : F)
    (state : F * list (row F)) (month : Z) : F * list (row F) :=
  let '(remaining_balance, data) := state in
  let capital_beginning := remaining_balance in
  let interest_payment := mul remaining_balance monthly_rate in
  let principal_payment := sub monthly_payment interest_payment in
  let remaining_balance := sub remaining_balance principal_payment in
  let remaining_balance :=
    if ltb remaining_balance (lit 0) then lit 0 else remaining_balance in
  let total_payment := add monthly_payment insurance_amount in
  (remaining_balance,
   data ++ [ {| month := month;
                capital_beginning := capital_beginning;
                principal_payment := principal_payment;
                interest_payment := interest_payment;
                insurance := insurance_amount;
                total_payment := total_payment |} ]).

(** Lines 48-58: the loop, from [remaining_balance = principal] and
    [data = []]. *)
Definition amortization_loop (principal monthly_rate monthly_payment : F)
    (duration_months : Z) (insurance_amount : F) : F * list (row F) :=
  fold_left (loop_body monthly_rate monthly_payment insurance_amount)
            (range 1 (duration_months + 1))
            (principal, []).

Definition amortization_data (principal monthly_rate monthly_payment : F)
    (duration_months : Z) (insurance_amount : F) : list (row F) :=
  snd (amortization_loop principal monthly_rate monthly_payment
         duration_months insurance_amount).

(** The value of [remaining_balance] when the loop ends. *)
Definition final_balance (principal monthly_rate monthly_payment : F)
    (duration_months : Z) (insurance_amount : F) : F :=
  fst (amortization_loop principal monthly_rate monthly_payment
         duration_months insurance_amount).

(** [Series.sum()] of a numeric column: missing values are skipped. *)
Definition series_sum (l : list F) : F :=
  fold_left add (filter (fun x => negb (isna x)) l) (lit 0).

(** A data row after lines 69-73: the month is kept, the five numeric
    columns are mapped through the format. *)
Definition format_row (r : row F) : list (cell F) :=
  [ CInt (month r);
    CStr (format_2f (capital_beginning r));
    CStr (format_2f (principal_payment r));
    CStr (format_2f (interest_payment r));
    CStr (format_2f (insurance r));
    CStr (format_2f (total_payment r)) ].

(** The totals row (lines 63-66 and 76-83). *)
Definition total_row (label : string) (data : list (row F)) : list (cell F) :=
  let total_capital_amorti := series_sum (map principal_payment data) in
  let total_interest_paid := series_sum (map interest_payment data) in
  let total_insurance := series_sum (map insurance data) in
  let total_echeance := series_sum (map total_payment data) in
  [ CStr label;
    CStr "";
    CStr (format_2f total_capital_amorti);
    CStr (format_2f total_interest_paid);
    CStr (format_2f total_insurance);
    CStr (format_2f total_echeance) ].

Definition create_amortization_table (st : session_state)
    (principal monthly_rate monthly_payment : F) (duration_months : Z)
    (insurance_amount : F) : result (DataFrame F) :=
  let data := amortization_data principal monthly_rate monthly_payment
                duration_months insurance_amount in
  c_mois <- get_translation st "Mois" ;;
  c_capital <- get_translation st "Capital Restant Du en Début de Période" ;;
  c_amorti <- get_translation st "Capital Amorti" ;;
  c_interets <- get_translation st "Intérêts" ;;
  c_assurance <- get_translation st "Assurance" ;;
  c_echeance <- get_translation st "Total Echeance" ;;
  l_total <- get_translation st "Total" ;;
  Ok {| columns := [c_mois; c_capital; c_amorti; c_interets; c_assurance; c_echeance];
        rows := map format_row data ++ [total_row l_total data] |}.

(** *** [calculate_loan], lines 4-44 *)

Definition calculate_loan (st : session_state) (principal taeg : F)
    (duration_months : Z) (insurance_amount : F) : result (loan_data F) :=
  if leb principal (lit 0) || leb taeg (lit 0) || (duration_months <=? 0)%Z then
    msg <- get_translation st "Les valeurs doivent être positives." ;;
    Raise (ValueError msg)
  else
    per_cent <- truediv taeg (lit 100) ;;
    monthly_rate <- truediv per_cent (lit 12) ;;
    growth <- pow (add (lit 1) monthly_rate) duration_months ;;
    growth' <- pow (add (lit 1) monthly_rate) duration_months ;;
    monthly_payment_without_insurance <-
      truediv (mul principal (mul monthly_rate growth)) (sub growth' (lit 1)) ;;
    let monthly_payment_with_insurance :=
      add monthly_payment_without_insurance insurance_amount in
    months <- of_int duration_months ;;
    let total_paid := mul monthly_payment_with_insurance months in
    let total_cost := sub total_paid principal in
    ratio <- truediv total_cost principal ;;
    let cost_percentage := mul ratio (lit 100) in
    months' <- of_int duration_months ;;
    let insurance_total_cost := mul insurance_amount months' in
    amortization_table <-
      create_amortization_table st principal monthly_rate
        monthly_payment_without_insurance duration_months insurance_amount ;;
    Ok {| monthly_payment := monthly_payment_with_insurance;
          total_cost := total_cost;
          total_paid := total_paid;
          cost_percentage := cost_percentage;
          insurance_total_cost := insurance_total_cost;
          amortization_table := amortization_table |}.

End Engine.

(** ** The format specification [",.2f"] *)

(** [n / d] rounded to the nearest integer, ties to the even one
    ([0 <= n], [0 < d]). *)
Definition round_half_even (n d : Z) : Z :=
  let q := n / d in
  match 2 * (n mod d) ?= d with
  | Lt => q
  | Eq => if Z.even q then q else q + 1
  | Gt => q + 1
  end.

(** A separator after every third digit, counting from the units; the
    digits come least significant first, [k] is the number already written
    in the current group. *)
Fixpoint insert_commas (rev_digits : list ascii) (k : nat) : list ascii :=
  match rev_digits with
  | [] => []
  | c :: rest =>
      match k with
      | 3%nat => ","%char :: c :: insert_commas rest 1
      | _ => c :: insert_commas rest (S k)
      end
  end.

Definition decimal (n : Z) : string := NilZero.string_of_uint (N.to_uint (Z.to_N n)).

Definition with_commas (digits : string) : string :=
  string_of_list_ascii (rev (insert_commas (rev (list_ascii_of_string digits)) 0)).

(** The rendering of a sign and a number of hundredths: grouped integer
    part, a point, two digits. *)
Definition format_cents (negative : bool) (cents : Z) : string :=
  ((if negative then "-" else "")
   ++ with_commas (decimal (cents / 100))
   ++ "."
   ++ decimal (cents mod 100 / 10)
   ++ decimal (cents mod 10))%string.

Lemma append_empty (a b : string) : (a ++ b)%string = "" -> a = "" /\ b = "".
Proof.
  destruct a as [ | c a]; simpl; intros Heq; [auto | discriminate].
Qed.

Lemma format_cents_nonempty (negative : bool) (cents : Z) :
  format_cents negative cents <> "".
Proof.
  unfold format_cents. intros Heq.
  apply append_empty in Heq. destruct Heq as [_ Heq].
  apply append_empty in Heq. destruct Heq as [_ Heq].
  discriminate Heq.
Qed.

(** ** Binary64 floats: what the interface passes to the engine *)

Module Binary64.

(** The coercion of a Python [int] to [float]: correctly rounded, to
    infinity beyond the largest finite value. *)
Definition float_of_Z (z : Z) : float :=
  SF2Prim (binary_normalize prec emax z 0 false).

(** [float(n)] raises [OverflowError] when [n] is too large. *)
Definition coerce (z : Z) : result float :=
  let f := float_of_Z z in
  if is_infinity f then Raise OverflowError else Ok f.

(** [x / y] on floats raises on a zero divisor of either sign. *)
Definition float_truediv (x y : float) : result float :=
  if PrimFloat.eqb y (float_of_Z 0) then Raise ZeroDivisionError
  else Ok (PrimFloat.div x y).

(** The exact power of a binary64 value, rounded once to binary64
    ([0 < n]). *)
Definition rounded_power (x : float) (n : positive) : float :=
  match Prim2SF x with
  | S754_finite s m e =>
      let mantissa := Zpos m ^ Zpos n in
      let signed := if s && Z.odd (Zpos n) then - mantissa else mantissa in
      SF2Prim (binary_normalize prec emax signed (e * Zpos n) false)
  | S754_zero s => if s && Z.odd (Zpos n) then PrimFloat.opp (float_of_Z 0) else float_of_Z 0
  | S754_infinity s => if s && Z.odd (Zpos n) then neg_infinity else infinity
  | S754_nan => nan
  end.

(** [x ** n] for a float [x] and an int [n]. The exponent is coerced first;
    the source then calls the C library's [pow], which returns the exact
    power rounded to binary64 (within one unit in the last place, and exactly
    whenever the power is representable, as for powers of [1.0] and [2.0]);
    it is modelled as the correctly rounded power. A finite base whose power
    overflows raises [OverflowError]; a zero base with a negative exponent
    raises [ZeroDivisionError]. *)
Definition float_pow (x : float) (n : Z) : result float :=
  _ <- coerce n ;;
  match n with
  | Z0 => Ok (float_of_Z 1)
  | Zpos p =>
      let y := rounded_power x p in
      if is_infinity y && negb (is_infinity x) then Raise OverflowError else Ok y
  | Zneg p =>
      if PrimFloat.eqb x (float_of_Z 0) then Raise ZeroDivisionError
      else Ok (PrimFloat.div (float_of_Z 1) (rounded_power x p))
  end.

(** [f"{x:,.2f}"]: the exact binary value rounded to hundredths, ties to
    even; the sign is kept even when the digits are all zero. *)
Definition float_format_2f (x : float) : string :=
  match Prim2SF x with
  | S754_nan => "nan"
  | S754_infinity s => if s then "-inf" else "inf"
  | S754_zero s => format_cents s 0
  | S754_finite s m e =>
      format_cents s
        (if (0 <=? e)%Z then Zpos m * 2 ^ e * 100
         else round_half_even (Zpos m * 100) (2 ^ (- e)))
  end.

Lemma float_ltb_leb (x y : float) :
  PrimFloat.ltb x y = true -> PrimFloat.leb x y = true.
Proof.
  intros Hlt. rewrite FloatAxioms.ltb_spec in Hlt. rewrite FloatAxioms.leb_spec.
  unfold SFltb in Hlt. unfold SFleb.
  destruct (SFcompare (Prim2SF x) (Prim2SF y)) as [[ | | ] | ]; congruence.
Qed.

Lemma float_truediv_defined (x y : float) :
  PrimFloat.leb y (float_of_Z 0) = false -> exists z, float_truediv x y = Ok z.
Proof.
  intros Hle. unfold float_truediv.
  destruct (PrimFloat.eqb y (float_of_Z 0)) eqn:Heq; [exfalso | eauto].
  rewrite FloatAxioms.eqb_spec in Heq. rewrite FloatAxioms.leb_spec in Hle.
  unfold SFeqb in Heq. unfold SFleb in Hle.
  destruct (SFcompare (Prim2SF y) (Prim2SF (float_of_Z 0))) as [[ | | ] | ];
    congruence.
Qed.

Lemma float_truediv_raises (x y : float) (e : exn) :
  float_truediv x y = Raise e -> arithmetic_error e.
Proof.
  unfold float_truediv, arithmetic_error.
  destruct (PrimFloat.eqb y (float_of_Z 0)); intros Heq; inversion Heq; auto.
Qed.

Lemma coerce_raises (n : Z) (e : exn) :
  coerce n = Raise e -> arithmetic_error e.
Proof.
  unfold coerce, arithmetic_error.
  destruct (is_infinity (float_of_Z n)); intros Heq; inversion Heq; auto.
Qed.

Lemma float_pow_raises (x : float) (n : Z) (e : exn) :
  float_pow x n = Raise e -> arithmetic_error e.
Proof.
  unfold float_pow. destruct (coerce n) as [f | e'] eqn:Hc; simpl.
  - destruct n as [ | q | q].
    + discriminate.
    + destruct (is_infinity (rounded_power x q) && negb (is_infinity x));
        intros Heq; inversion Heq; right; reflexivity.
    + destruct (PrimFloat.eqb x (float_of_Z 0));
        intros Heq; inversion Heq; left; reflexivity.
  - intros Heq. inversion Heq. subst e'. eapply coerce_raises. eassumption.
Qed.

Lemma float_pow_coerces (x : float) (n : Z) (y : float) :
  float_pow x n = Ok y -> exists f, coerce n = Ok f.
Proof.
  unfold float_pow. destruct (coerce n) as [f | e]; [eauto | discriminate].
Qed.

Lemma float_format_2f_nonempty (x : float) : float_format_2f x <> "".
Proof.
  unfold float_format_2f.
  destruct (Prim2SF x) as [s | [ | ] | | s m e];
    try discriminate; apply format_cents_nonempty.
Qed.

#[global] Instance float_number : Number float := {|
  lit := float_of_Z;
  of_int := coerce;
  add := PrimFloat.add;
  sub := PrimFloat.sub;
  mul := PrimFloat.mul;
  truediv := float_truediv;
  pow := float_pow;
  leb := PrimFloat.leb;
  ltb := PrimFloat.ltb;
  isna := PrimFloat.is_nan;
  format_2f := float_format_2f;
  ltb_leb := float_ltb_leb;
  ltb_zero := eq_refl;
  truediv_defined := float_truediv_defined;
  truediv_raises := float_truediv_raises;
  pow_raises := float_pow_raises;
  of_int_raises := coerce_raises;
  pow_coerces := float_pow_coerces;
  format_2f_nonempty := float_format_2f_nonempty
|}.

End Binary64.

(** ** Exact rationals: the engine run on [fractions.Fraction] *)

Module Exact.

Local Open Scope Qc_scope.

Definition Qc_of_Z (z : Z) : Qc := Q2Qc (inject_Z z).

(** [x / y] raises on a zero divisor. *)
Definition Qc_truediv (x y : Qc) : result Qc :=
  if Qc_eq_dec y (Qc_of_Z 0) then Raise ZeroDivisionError else Ok (x / y).

(** [x ** n]: exact; a zero base with a negative exponent raises. *)
Definition Qc_pow (x : Qc) (n : Z) : result Qc :=
  match n with
  | Z0 => Ok (Qc_of_Z 1)
  | Zpos p => Ok (x ^ Pos.to_nat p)
  | Zneg p =>
      if Qc_eq_dec x (Qc_of_Z 0) then Raise ZeroDivisionError
      else Ok (/ (x ^ Pos.to_nat p))
  end.

Definition Qc_leb (x y : Qc) : bool := Qle_bool x y.
Definition Qc_ltb (x y : Qc) : bool := negb (Qle_bool y x).

(** The absolute value rounded to hundredths, ties to even, with the sign
    of the number. *)
Definition Qc_format_2f (x : Qc) : string :=
  format_cents (Qnum x <? 0)%Z
    (round_half_even (Z.abs (Qnum x) * 100) (Zpos (Qden x))).

Lemma Qc_ltb_leb (x y : Qc) : Qc_ltb x y = true -> Qc_leb x y = true.
Proof.
  unfold Qc_ltb, Qc_leb. intros Hlt.
  apply Qle_bool_iff. apply negb_true_iff in Hlt.
  destruct (Qlt_le_dec x y) as [Hxy | Hyx].
  - apply Qlt_le_weak. assumption.
  - apply Qle_bool_iff in Hyx. congruence.
Qed.

Lemma Qc_truediv_defined (x y : Qc) :
  Qc_leb y (Qc_of_Z 0) = false -> exists z, Qc_truediv x y = Ok z.
Proof.
  intros Hle. unfold Qc_truediv.
  destruct (Qc_eq_dec y (Qc_of_Z 0)) as [-> | Hne]; [ | eauto].
  discriminate Hle.
Qed.

Lemma Qc_truediv_raises (x y : Qc) (e : exn) :
  Qc_truediv x y = Raise e -> arithmetic_error e.
Proof.
  unfold Qc_truediv, arithmetic_error.
  destruct (Qc_eq_dec y (Qc_of_Z 0)); intros Heq; inversion Heq; auto.
Qed.

Lemma Qc_pow_raises (x : Qc) (n : Z) (e : exn) :
  Qc_pow x n = Raise e -> arithmetic_error e.
Proof.
  unfold Qc_pow, arithmetic_error. destruct n as [ | q | q]; try discriminate.
  destruct (Qc_eq_dec x (Qc_of_Z 0)); intros Heq; inversion Heq; auto.
Qed.

Lemma Qc_of_int_raises (n : Z) (e : exn) :
  Ok (Qc_of_Z n) = Raise e -> arithmetic_error e.
Proof.
  discriminate.
Qed.

Lemma Qc_pow_coerces (x : Qc) (n : Z) (y : Qc) :
  Qc_pow x n = Ok y -> exists f, Ok (Qc_of_Z n) = Ok f.
Proof.
  intros _. eauto.
Qed.

Lemma Qc_format_2f_nonempty (x : Qc) : Qc_format_2f x <> "".
Proof.
  apply format_cents_nonempty.
Qed.

#[global] Instance Qc_number : Number Qc := {|
  lit := Qc_of_Z;
  of_int := fun z => Ok (Qc_of_Z z);
  add := Qcplus;
  sub := Qcminus;
  mul := Qcmult;
  truediv := Qc_truediv;
  pow := Qc_pow;
  leb := Qc_leb;
  ltb := Qc_ltb;
  isna := fun _ => false;
  format_2f := Qc_format_2f;
  ltb_leb := Qc_ltb_leb;
  ltb_zero := eq_refl;
  truediv_defined := Qc_truediv_defined;
  truediv_raises := Qc_truediv_raises;
  pow_raises := Qc_pow_raises;
  of_int_raises := Qc_of_int_raises;
  pow_coerces := Qc_pow_coerces;
  format_2f_nonempty := Qc_format_2f_nonempty
|}.

End Exact.

(** ** The schedule as the specification words it *)

Section Schedule.

Context {F : Type} `{Number F}.

(** A balance clamped to a floor of 0. *)
Definition clamp (x : F) : F := if ltb x (lit 0) then lit 0 else x.

(** The running balance after [k] payments: it starts at the principal, and
    each month takes the principal portion (payment minus interest) off it,
    clamped. *)
Fixpoint spec_balance (principal monthly_rate base_payment : F) (k : nat) : F :=
  match k with
  | O => principal
  | S k' =>
      let opening := spec_balance principal monthly_rate base_payment k' in
      let interest := mul opening monthly_rate in
      clamp (sub opening (sub base_payment interest))
  end.

(** The row of month [1 + i]. *)
Definition spec_row (principal monthly_rate base_payment insurance_amount : F)
    (i : nat) : row F :=
  let opening := spec_balance principal monthly_rate base_payment i in
  {| month := 1 + Z.of_nat i;
     capital_beginning := opening;
     principal_payment := sub base_payment (mul opening monthly_rate);
     interest_payment := mul opening monthly_rate;
     insurance := insurance_amount;
     total_payment := add base_payment insurance_amount |}.

(** monthlyRate = annualRate / 100 / 12. *)
Definition spec_monthlyRate (annualRate : F) : result F :=
  per_cent <- truediv annualRate (lit 100) ;;
  truediv per_cent (lit 12).

(** basePayment = principal * (monthlyRate * (1+monthlyRate)^durationMonths)
                  / ((1+monthlyRate)^durationMonths - 1). *)
Definition spec_basePayment (principal monthlyRate : F) (durationMonths : Z)
  : result F :=
  growth <- pow (add (lit 1) monthlyRate) durationMonths ;;
  truediv (mul principal (mul monthlyRate growth)) (sub growth (lit 1)).

(** The guard of line 22. *)
Definition invalid_input (principal taeg : F) (duration_months : Z) : bool :=
  leb principal (lit 0) || leb taeg (lit 0) || (duration_months <=? 0)%Z.

(** The shape of a formatted data row and of the totals row. *)
Definition formatted_data_row (r : list (cell F)) : Prop :=
  exists m a b c d e,
    r = [CInt m; CStr (format_2f a); CStr (format_2f b); CStr (format_2f c);
         CStr (format_2f d); CStr (format_2f e)].

Definition formatted_total_row (r : list (cell F)) : Prop :=
  exists b c d e,
    r = [CStr "Total"; CStr ""; CStr (format_2f b); CStr (format_2f c);
         CStr (format_2f d); CStr (format_2f e)].

(** *** The loop *)

Lemma loop_unrolled (principal monthly_rate monthly_payment insurance_amount : F)
    (k : nat) :
  fold_left (loop_body monthly_rate monthly_payment insurance_amount)
            (map (fun i => 1 + Z.of_nat i) (seq 0 k)) (principal, [])
  = (spec_balance principal monthly_rate monthly_payment k,
     map (spec_row principal monthly_rate monthly_payment insurance_amount)
         (seq 0 k)).
Proof.
  induction k as [ | k IH].
  - reflexivity.
  - rewrite seq_S, map_app, fold_left_app, IH.
    rewrite map_app. reflexivity.
Qed.

Lemma amortization_loop_spec (principal monthly_rate monthly_payment : F)
    (duration_months : Z) (insurance_amount : F) :
  amortization_loop principal monthly_rate monthly_payment duration_months
    insurance_amount
  = (spec_balance principal monthly_rate monthly_payment
       (Z.to_nat duration_months),
     map (spec_row principal monthly_rate monthly_payment insurance_amount)
         (seq 0 (Z.to_nat duration_months))).
Proof.
  unfold amortization_loop, range.
  replace (duration_months + 1 - 1) with duration_months by lia.
  apply loop_unrolled.
Qed.

Lemma amortization_data_spec (principal monthly_rate monthly_payment : F)
    (duration_months : Z) (insurance_amount : F) :
  amortization_data principal monthly_rate monthly_payment duration_months
    insurance_amount
  = map (spec_row principal monthly_rate monthly_payment insurance_amount)
        (seq 0 (Z.to_nat duration_months)).
Proof.
  unfold amortization_data. rewrite amortization_loop_spec. reflexivity.
Qed.

Lemma final_balance_spec (principal monthly_rate monthly_payment : F)
    (duration_months : Z) (insurance_amount : F) :
  final_balance principal monthly_rate monthly_payment duration_months
    insurance_amount
  = spec_balance principal monthly_rate monthly_payment
      (Z.to_nat duration_months).
Proof.
  unfold final_balance. rewrite amortization_loop_spec. reflexivity.
Qed.

Lemma amortization_data_length (principal monthly_rate monthly_payment : F)
    (duration_months : Z) (insurance_amount : F) :
  List.length (amortization_data principal monthly_rate monthly_payment
                 duration_months insurance_amount)
  = Z.to_nat duration_months.
Proof.
  rewrite amortization_data_spec, length_map, length_seq. reflexivity.
Qed.

Lemma amortization_data_nth (principal monthly_rate monthly_payment : F)
    (duration_months : Z) (insurance_amount : F) (i : nat) :
  (i < Z.to_nat duration_months)%nat ->
  nth_error (amortization_data principal monthly_rate monthly_payment
               duration_months insurance_amount) i
  = Some (spec_row principal monthly_rate monthly_payment insurance_amount i).
Proof.
  intros Hi. rewrite amortization_data_spec.
  rewrite nth_error_map, nth_error_seq.
  destruct (Nat.ltb_spec i (Z.to_nat duration_months)); [reflexivity | lia].
Qed.

(** *** The table *)

Lemma create_amortization_table_spec (st : session_state)
    (principal monthly_rate monthly_payment : F) (duration_months : Z)
    (insurance_amount : F) :
  exists header,
    create_amortization_table st principal monthly_rate monthly_payment
      duration_months insurance_amount
    = Ok {| columns := header;
            rows :=
              map format_row
                (amortization_data principal monthly_rate monthly_payment
                   duration_months insurance_amount)
              ++ [total_row "Total"
                    (amortization_data principal monthly_rate monthly_payment
                       duration_months insurance_amount)] |}.
Proof.
  unfold create_amortization_table.
  destruct st as [[ | ]]; eexists; reflexivity.
Qed.

End Schedule.

(** ** [calculate_loan] unfolded *)

Section Loan.

Context {F : Type} `{Number F}.

(** The message of the [ValueError], in the selected language. *)
Definition positive_values_message (l : Language) : string :=
  match l with
  | Francais => "Les valeurs doivent être positives."
  | English => "Values must be positive."
  end.

Lemma calculate_loan_invalid (st : session_state) (principal taeg : F)
    (duration_months : Z) (insurance_amount : F) :
  invalid_input principal taeg duration_months = true ->
  calculate_loan st principal taeg duration_months insurance_amount
  = Raise (ValueError (positive_values_message (language st))).
Proof.
  unfold calculate_loan, invalid_input. intros ->.
  destruct st as [[ | ]]; reflexivity.
Qed.

(** Past the guard, the call is the chain of the specification's steps; the
    power and the coercion of the duration, written twice in the source, are
    evaluated once here. *)
Lemma calculate_loan_valid (st : session_state) (principal taeg : F)
    (duration_months : Z) (insurance_amount : F) :
  invalid_input principal taeg duration_months = false ->
  calculate_loan st principal taeg duration_months insurance_amount
  = (monthly_rate <- spec_monthlyRate taeg ;;
     base <- spec_basePayment principal monthly_rate duration_months ;;
     months <- of_int duration_months ;;
     ratio <- truediv (sub (mul (add base insurance_amount) months) principal)
                principal ;;
     table <- create_amortization_table st principal monthly_rate base
                duration_months insurance_amount ;;
     Ok {| monthly_payment := add base insurance_amount;
           total_cost := sub (mul (add base insurance_amount) months) principal;
           total_paid := mul (add base insurance_amount) months;
           cost_percentage := mul ratio (lit 100);
           insurance_total_cost := mul insurance_amount months;
           amortization_table := table |}).
Proof.
  unfold calculate_loan, invalid_input. intros ->.
  unfold spec_monthlyRate, spec_basePayment, bind.
  destruct (truediv taeg (lit 100)) as [per_cent | e]; [ | reflexivity].
  destruct (truediv per_cent (lit 12)) as [monthly_rate | e]; [ | reflexivity].
  destruct (pow (add (lit 1) monthly_rate) duration_months) as [growth | e];
    [ | reflexivity].
  destruct (truediv (mul principal (mul monthly_rate growth))
              (sub growth (lit 1))) as [base | e]; [ | reflexivity].
  destruct (of_int duration_months) as [months | e]; reflexivity.
Qed.

Lemma invalid_input_false (principal taeg : F) (duration_months : Z) :
  leb principal (lit 0) = false ->
  leb taeg (lit 0) = false ->
  0 < duration_months ->
  invalid_input principal taeg duration_months = false.
Proof.
  intros Hp Ht Hn. unfold invalid_input. rewrite Hp, Ht. simpl.
  apply Z.leb_gt. assumption.
Qed.

(** For a valid input whose annuity formula evaluates, every later step
    succeeds and the call returns. *)
Lemma calculate_loan_returns (st : session_state) (principal taeg : F)
    (duration_months : Z) (insurance_amount monthly_rate base : F) :
  leb principal (lit 0) = false ->
  leb taeg (lit 0) = false ->
  0 < duration_months ->
  spec_monthlyRate taeg = Ok monthly_rate ->
  spec_basePayment principal monthly_rate duration_months = Ok base ->
  exists months ratio table,
    of_int duration_months = Ok months
    /\ truediv (sub (mul (add base insurance_amount) months) principal)
         principal = Ok ratio
    /\ create_amortization_table st principal monthly_rate base
         duration_months insurance_amount = Ok table
    /\ calculate_loan st principal taeg duration_months insurance_amount
       = Ok {| monthly_payment := add base insurance_amount;
               total_cost :=
                 sub (mul (add base insurance_amount) months) principal;
               total_paid := mul (add base insurance_amount) months;
               cost_percentage := mul ratio (lit 100);
               insurance_total_cost := mul insurance_amount months;
               amortization_table := table |}.
Proof.
  intros Hp Ht Hn Hrate Hbase.
  rewrite calculate_loan_valid by (apply invalid_input_false; assumption).
  rewrite Hrate. cbv beta iota delta [bind].
  rewrite Hbase. cbv beta iota.
  assert (Hmonths : exists months, of_int duration_months = Ok months).
  { unfold spec_basePayment in Hbase.
    destruct (pow (add (lit 1) monthly_rate) duration_months) as [g | e] eqn:Hg;
      [ | discriminate].
    eapply pow_coerces. eassumption. }
  destruct Hmonths as [months Hmonths].
  destruct (truediv_defined
              (sub (mul (add base insurance_amount) months) principal)
              principal Hp) as [ratio Hratio].
  destruct (create_amortization_table_spec st principal monthly_rate base
              duration_months insurance_amount) as [header Htable].
  exists months, ratio. eexists.
  split; [assumption | ]. split; [assumption | ]. split; [eassumption | ].
  rewrite Hmonths. cbv beta iota delta [bind].
  rewrite Hratio. cbv beta iota.
  rewrite Htable. reflexivity.
Qed.

End Loan.

(** ** Properties of the engine, for every kind of number *)

Section Properties.

Context {F : Type} `{Number F}.

Lemma invalid_input_false_inv (principal taeg : F) (duration_months : Z) :
  invalid_input principal taeg duration_months = false ->
  leb principal (lit 0) = false /\ leb taeg (lit 0) = false
  /\ 0 < duration_months.
Proof.
  unfold invalid_input. intros Hinv.
  apply orb_false_iff in Hinv. destruct Hinv as [Hinv Hn].
  apply orb_false_iff in Hinv. destruct Hinv as [Hp Ht].
  apply Z.leb_gt in Hn. auto.
Qed.




(** The table of a returned loan is the one [create_amortization_table]
    builds from the monthly rate and the base payment. *)
Lemma calculate_loan_table (st : session_state) (principal taeg : F)
    (duration_months : Z) (insurance_amount : F) (ld : loan_data F) :
  calculate_loan st principal taeg duration_months insurance_amount = Ok ld ->
  exists monthly_rate base,
    spec_monthlyRate taeg = Ok monthly_rate
    /\ spec_basePayment principal monthly_rate duration_months = Ok base
    /\ create_amortization_table st principal monthly_rate base
         duration_months insurance_amount = Ok (amortization_table ld).
Proof.
  intros Hld.
  destruct (invalid_input principal taeg duration_months) eqn:Hinv.
  - rewrite calculate_loan_invalid in Hld by assumption. discriminate.
  - rewrite calculate_loan_valid in Hld by assumption.
    destruct (spec_monthlyRate taeg) as [monthly_rate | e] eqn:Hrate;
      [ | discriminate].
    cbv beta iota delta [bind] in Hld.
    destruct (spec_basePayment principal monthly_rate duration_months)
      as [base | e] eqn:Hbase; [ | discriminate].
    destruct (of_int duration_months) as [months | e]; [ | discriminate].
    destruct (truediv _ principal) as [ratio | e]; [ | discriminate].
    destruct (create_amortization_table st principal monthly_rate base
                duration_months insurance_amount) as [table | e] eqn:Htable;
      [ | discriminate].
    injection Hld as <-. exists monthly_rate, base.
    split; [reflexivity | ]. split; assumption.
Qed.


Lemma total_row_formatted (data : list (row F)) :
  formatted_total_row (total_row "Total" data).
Proof.
  unfold formatted_total_row, total_row. eauto.
Qed.

Lemma format_row_formatted (r : row F) : formatted_data_row (format_row r).
Proof.
  unfold formatted_data_row, format_row. do 6 eexists. reflexivity.
Qed.

(** The claim "every cell of the five money columns is the rendering of a
    number", as a predicate on a table. *)
Definition all_cells_formatted (df : DataFrame F) : Prop :=
  forall r, In r (rows df) ->
  forall j, (1 <= j <= 5)%nat ->
  exists x, nth_error r j = Some (CStr (format_2f x)).

Lemma blank_cell_not_formatted (st : session_state)
    (principal monthly_rate monthly_payment : F) (duration_months : Z)
    (insurance_amount : F) (df : DataFrame F) :
  create_amortization_table st principal monthly_rate monthly_payment
    duration_months insurance_amount = Ok df ->
  ~ all_cells_formatted df.
Proof.
  intros Hdf Hall.
  destruct (create_amortization_table_spec st principal monthly_rate
              monthly_payment duration_months insurance_amount)
    as [header Hspec].
  rewrite Hspec in Hdf. inversion Hdf as [Heq]. clear Hdf.
  destruct (Hall (total_row "Total"
                    (amortization_data principal monthly_rate monthly_payment
                       duration_months insurance_amount))) with (j := 1%nat)
    as [x Hx].
  - rewrite <- Heq. simpl. apply in_or_app. right. left. reflexivity.
  - lia.
  - simpl in Hx. inversion Hx as [Hblank].
    symmetry in Hblank. revert Hblank. apply format_2f_nonempty.
Qed.

End Properties.

(** ** The claims that hold for every kind of number *)

Section Claims.

Context {F : Type} `{Number F}.


(** C4: for every month [m] from 1 to the duration, the [m]-th row of the
    data built by [create_amortization_table] carries month [m]; its opening
    balance is the running balance before the payment (the principal for
    month 1, the balance left by the loop after [m - 1] months in general);
    interest = opening balance x monthly rate; principal portion = base
    payment - interest; the balance after the month is the opening balance
    minus the principal portion, clamped to a floor of 0; the insurance
    portion is the monthly insurance and the total due is base payment +
    insurance. *)
Theorem C4_row_recurrence (principal monthly_rate monthly_payment : F)
    (duration_months : Z) (insurance_amount : F) (m : Z) :
  1 <= m <= duration_months ->
  exists r,
    nth_error (amortization_data principal monthly_rate monthly_payment
                 duration_months insurance_amount) (Z.to_nat (m - 1)) = Some r
    /\ month r = m
    /\ capital_beginning r
       = final_balance principal monthly_rate monthly_payment (m - 1)
           insurance_amount
    /\ (m = 1 -> capital_beginning r = principal)
    /\ interest_payment r = mul (capital_beginning r) monthly_rate
    /\ principal_payment r = sub monthly_payment (interest_payment r)
    /\ final_balance principal monthly_rate monthly_payment m insurance_amount
       = clamp (sub (capital_beginning r) (principal_payment r))
    /\ insurance r = insurance_amount
    /\ total_payment r = add monthly_payment insurance_amount.
Proof.
  intros Hm.
  exists (spec_row principal monthly_rate monthly_payment insurance_amount
            (Z.to_nat (m - 1))).
  split; [apply amortization_data_nth; lia | ].
  rewrite !final_balance_spec.
  replace (Z.to_nat m) with (S (Z.to_nat (m - 1))) by lia.
  unfold spec_row.
  cbn [month capital_beginning interest_payment principal_payment insurance
       total_payment spec_balance].
  repeat split; try reflexivity.
  - lia.
  - intros ->. reflexivity.
Qed.


(** C6: for a valid input whose annuity formula evaluates, the summary
    [calculate_loan] returns has total_paid = monthly_payment x duration,
    total_cost = total_paid - principal, cost_percentage =
    total_cost / principal x 100 and insurance_total_cost = monthly
    insurance x duration. *)
Theorem C6_summary_fields (st : session_state) (principal taeg : F)
    (duration_months : Z) (insurance_amount monthly_rate base : F) :
  leb principal (lit 0) = false ->
  leb taeg (lit 0) = false ->
  0 < duration_months ->
  spec_monthlyRate taeg = Ok monthly_rate ->
  spec_basePayment principal monthly_rate duration_months = Ok base ->
  exists ld months ratio,
    calculate_loan st principal taeg duration_months insurance_amount = Ok ld
    /\ of_int duration_months = Ok months
    /\ total_paid ld = mul (monthly_payment ld) months
    /\ total_cost ld = sub (total_paid ld) principal
    /\ truediv (total_cost ld) principal = Ok ratio
    /\ cost_percentage ld = mul ratio (lit 100)
    /\ insurance_total_cost ld = mul insurance_amount months.
Proof.
  intros Hp Ht Hn Hrate Hbase.
  destruct (calculate_loan_returns st principal taeg duration_months
              insurance_amount monthly_rate base Hp Ht Hn Hrate Hbase)
    as (months & ratio & table & Hmonths & Hratio & _ & Hld).
  eexists. exists months, ratio.
  split; [exact Hld | ]. simpl.
  repeat split; try reflexivity; assumption.
Qed.


End Claims.

(** ** Amended claims that hold for every kind of number *)

Section Amended.

Context {F : Type} `{Number F}.




(** C9, amended: every cell of the five money columns of the returned table
    is a string. In a data row each is the [",.2f"] rendering of the row's
    number and the month cell is the raw month; in the totals row the four
    summed columns are such renderings, the month cell is the label "Total"
    and the opening-balance cell is the empty string. *)
Theorem C9_cells_are_strings (st : session_state)
    (principal monthly_rate monthly_payment : F) (duration_months : Z)
    (insurance_amount : F) :
  exists df body totals,
    create_amortization_table st principal monthly_rate monthly_payment
      duration_months insurance_amount = Ok df
    /\ rows df = body ++ [totals]
    /\ Forall formatted_data_row body
    /\ formatted_total_row totals.
Proof.
  destruct (create_amortization_table_spec st principal monthly_rate
              monthly_payment duration_months insurance_amount)
    as [header Hspec].
  eexists. eexists. eexists.
  split; [exact Hspec | ]. split; [reflexivity | ].
  split; [ | apply total_row_formatted].
  apply Forall_forall. intros r Hin.
  apply in_map_iff in Hin. destruct Hin as (x & <- & _).
  apply format_row_formatted.
Qed.

End Amended.

(** ** Exact arithmetic: the schedule amortizes the loan *)

Module ExactSchedule.

Import Exact.
Local Open Scope Qc_scope.

Lemma Qc_of_Z_0 : Qc_of_Z 0 = 0.
Proof. reflexivity. Qed.

Lemma Qc_of_Z_1 : Qc_of_Z 1 = 1.
Proof. reflexivity. Qed.

Lemma Qc_leb_false (x y : Qc) : Qc_leb x y = false <-> y < x.
Proof.
  unfold Qc_leb. split.
  - intros Hle. apply Qcnot_le_lt. intros Hxy.
    apply Qle_bool_iff in Hxy. congruence.
  - intros Hlt. destruct (Qle_bool x y) eqn:Hle; [ | reflexivity].
    apply Qle_bool_iff in Hle. exfalso. revert Hle.
    apply Qclt_not_le. assumption.
Qed.

Lemma Qc_ltb_false (x y : Qc) : Qc_ltb x y = false <-> y <= x.
Proof.
  unfold Qc_ltb. rewrite negb_false_iff. apply Qle_bool_iff.
Qed.

Lemma Qc_mult_nonneg (x y : Qc) : 0 <= x -> 0 <= y -> 0 <= x * y.
Proof.
  intros Hx Hy. rewrite <- (Qcmult_0_l y).
  apply Qcmult_le_compat_r; assumption.
Qed.

Lemma Qc_mult_pos (x y : Qc) : 0 < x -> 0 < y -> 0 < x * y.
Proof.
  intros Hx Hy. rewrite <- (Qcmult_0_l y).
  apply Qcmult_lt_compat_r; assumption.
Qed.

Lemma Qc_plus_pos (x y : Qc) : 0 < x -> 0 <= y -> 0 < x + y.
Proof.
  intros Hx Hy. apply Qclt_le_trans with (x + 0).
  - rewrite Qcplus_0_r. assumption.
  - apply Qcplus_le_compat; [apply Qcle_refl | assumption].
Qed.

Section Growth.

Variable r : Qc.
Hypothesis r_pos : 0 < r.

Lemma growth_pos (k : nat) : 0 < (1 + r) ^ k.
Proof.
  induction k as [ | k IH]; simpl.
  - reflexivity.
  - apply Qc_mult_pos; [ | assumption].
    rewrite Qcplus_comm. apply Qc_plus_pos; [assumption | discriminate].
Qed.

Lemma growth_step (k : nat) : (1 + r) ^ k < (1 + r) ^ S k.
Proof.
  apply Qclt_minus_iff. simpl.
  replace ((1 + r) * (1 + r) ^ k + - (1 + r) ^ k) with (r * (1 + r) ^ k)
    by ring.
  apply Qc_mult_pos; [assumption | apply growth_pos].
Qed.

Lemma growth_mono (k n : nat) : (k <= n)%nat -> (1 + r) ^ k <= (1 + r) ^ n.
Proof.
  induction 1 as [ | n Hle IH].
  - apply Qcle_refl.
  - apply Qcle_trans with ((1 + r) ^ n); [assumption | ].
    apply Qclt_le_weak. apply growth_step.
Qed.

Lemma growth_gt_one (n : nat) : (0 < n)%nat -> 1 < (1 + r) ^ n.
Proof.
  intros Hn. apply Qclt_le_trans with ((1 + r) ^ 1).
  - simpl. rewrite Qcmult_1_r. apply Qclt_minus_iff.
    replace (1 + r + - (1)) with r by ring. assumption.
  - apply growth_mono. lia.
Qed.

End Growth.

Lemma clamp_nonneg (x : Qc) : 0 <= x -> clamp x = x.
Proof.
  intros Hx. unfold clamp.
  change (ltb x (lit 0)) with (Qc_ltb x 0).
  apply Qc_ltb_false in Hx. rewrite Hx. reflexivity.
Qed.

Section Amortization.

Variables p r : Qc.
Variable n : nat.
Hypothesis p_pos : 0 < p.
Hypothesis r_pos : 0 < r.
Hypothesis n_pos : (0 < n)%nat.

(** The annuity payment, as the formula gives it. *)
Definition annuity : Qc := p * (r * (1 + r) ^ n) / ((1 + r) ^ n - 1).

Lemma growth_minus_one_pos : 0 < (1 + r) ^ n - 1.
Proof.
  unfold Qcminus. apply (proj1 (Qclt_minus_iff 1 ((1 + r) ^ n))).
  apply growth_gt_one; assumption.
Qed.

Lemma growth_minus_one_nonzero : (1 + r) ^ n - 1 <> 0.
Proof.
  apply not_eq_sym. apply Qclt_not_eq. apply growth_minus_one_pos.
Qed.

Lemma annuity_times_denominator :
  annuity * ((1 + r) ^ n - 1) = p * (r * (1 + r) ^ n).
Proof.
  unfold annuity. field. apply growth_minus_one_nonzero.
Qed.

Lemma scaled_nonneg (x : Qc) : 0 <= x * ((1 + r) ^ n - 1) -> 0 <= x.
Proof.
  intros Hx.
  apply Qcmult_lt_0_le_reg_r with ((1 + r) ^ n - 1).
  - apply growth_minus_one_pos.
  - rewrite Qcmult_0_l. assumption.
Qed.

Lemma scaled_pos (x : Qc) : 0 < x * ((1 + r) ^ n - 1) -> 0 < x.
Proof.
  intros Hx. apply Qcnot_le_lt. intros Hle.
  apply (Qclt_not_le _ _ Hx).
  rewrite <- (Qcmult_0_l ((1 + r) ^ n - 1)).
  apply Qcmult_le_compat_r; [assumption | ].
  apply Qclt_le_weak. apply growth_minus_one_pos.
Qed.

(** One unclamped step of the recurrence keeps the closed form. *)
Lemma unclamped_step (b : Qc) (k : nat) :
  b * ((1 + r) ^ n - 1) = p * ((1 + r) ^ n - (1 + r) ^ k) ->
  (b - (annuity - b * r)) * ((1 + r) ^ n - 1)
  = p * ((1 + r) ^ n - (1 + r) ^ S k).
Proof.
  intros Hb.
  replace ((b - (annuity - b * r)) * ((1 + r) ^ n - 1))
    with (b * ((1 + r) ^ n - 1) * (1 + r) - annuity * ((1 + r) ^ n - 1))
    by ring.
  rewrite Hb, annuity_times_denominator. simpl. ring.
Qed.

Lemma closed_form_nonneg (k : nat) :
  (k <= n)%nat -> 0 <= p * ((1 + r) ^ n - (1 + r) ^ k).
Proof.
  intros Hk. apply Qc_mult_nonneg; [apply Qclt_le_weak; assumption | ].
  unfold Qcminus.
  apply (proj1 (Qcle_minus_iff ((1 + r) ^ k) ((1 + r) ^ n))).
  apply growth_mono; assumption.
Qed.

(** The balance after [k] payments in closed form. *)
Lemma balance_closed_form (k : nat) :
  (k <= n)%nat ->
  spec_balance p r annuity k * ((1 + r) ^ n - 1)
  = p * ((1 + r) ^ n - (1 + r) ^ k).
Proof.
  induction k as [ | k IH]; intros Hk.
  - simpl. ring.
  - assert (Hstep := unclamped_step _ k (IH ltac:(lia))).
    change (spec_balance p r annuity (S k))
      with (clamp (spec_balance p r annuity k
                   - (annuity - spec_balance p r annuity k * r))).
    rewrite clamp_nonneg; [exact Hstep | ].
    apply scaled_nonneg. rewrite Hstep. apply closed_form_nonneg. assumption.
Qed.

(** The clamp never fires. *)
Lemma balance_step (k : nat) :
  (S k <= n)%nat ->
  spec_balance p r annuity (S k)
  = spec_balance p r annuity k
    - (annuity - spec_balance p r annuity k * r).
Proof.
  intros Hk.
  assert (Hstep := unclamped_step _ k (balance_closed_form k ltac:(lia))).
  change (spec_balance p r annuity (S k))
    with (clamp (spec_balance p r annuity k
                 - (annuity - spec_balance p r annuity k * r))).
  apply clamp_nonneg.
  apply scaled_nonneg. rewrite Hstep. apply closed_form_nonneg. assumption.
Qed.

Lemma balance_nonneg (k : nat) :
  (k <= n)%nat -> 0 <= spec_balance p r annuity k.
Proof.
  intros Hk. apply scaled_nonneg. rewrite balance_closed_form by assumption.
  apply closed_form_nonneg. assumption.
Qed.


(** Every payment repays some principal. *)
Lemma principal_portion_pos (k : nat) :
  (k <= n)%nat -> 0 < annuity - spec_balance p r annuity k * r.
Proof.
  intros Hk. apply scaled_pos.
  replace ((annuity - spec_balance p r annuity k * r) * ((1 + r) ^ n - 1))
    with (annuity * ((1 + r) ^ n - 1)
          - spec_balance p r annuity k * ((1 + r) ^ n - 1) * r) by ring.
  rewrite annuity_times_denominator, balance_closed_form by assumption.
  replace (p * (r * (1 + r) ^ n) - p * ((1 + r) ^ n - (1 + r) ^ k) * r)
    with (p * r * (1 + r) ^ k) by ring.
  apply Qc_mult_pos; [apply Qc_mult_pos; assumption | ].
  apply growth_pos. assumption.
Qed.




End Amortization.

(** On exact rationals a valid input always has a payment: the rate is
    positive, the denominator of the formula is not zero. *)
Lemma exact_formula (principal taeg : Qc) (duration_months : Z) :
  invalid_input principal taeg duration_months = false ->
  exists monthly_rate,
    0 < principal /\ 0 < monthly_rate /\ (0 < Z.to_nat duration_months)%nat
    /\ spec_monthlyRate taeg = Ok monthly_rate
    /\ spec_basePayment principal monthly_rate duration_months
       = Ok (annuity principal monthly_rate (Z.to_nat duration_months)).
Proof.
  intros Hinv.
  destruct (invalid_input_false_inv _ _ _ Hinv) as (Hp & Ht & Hn).
  apply Qc_leb_false in Hp. apply Qc_leb_false in Ht.
  change (lit 0) with 0 in Hp, Ht.
  exists (taeg / Qc_of_Z 100 / Qc_of_Z 12).
  assert (Hr : 0 < taeg / Qc_of_Z 100 / Qc_of_Z 12).
  { unfold Qcdiv. apply Qc_mult_pos; [apply Qc_mult_pos | ];
      [assumption | reflexivity | reflexivity]. }
  split; [assumption | ]. split; [assumption | ]. split; [lia | ].
  split.
  - unfold spec_monthlyRate, bind.
    change (truediv taeg (lit 100)) with (Qc_truediv taeg (Qc_of_Z 100)).
    unfold Qc_truediv at 1.
    destruct (Qc_eq_dec (Qc_of_Z 100) (Qc_of_Z 0)); [discriminate | ].
    change (truediv (taeg / Qc_of_Z 100) (lit 12))
      with (Qc_truediv (taeg / Qc_of_Z 100) (Qc_of_Z 12)).
    unfold Qc_truediv.
    destruct (Qc_eq_dec (Qc_of_Z 12) (Qc_of_Z 0)); [discriminate | ].
    reflexivity.
  - destruct duration_months as [ | q | q]; try lia.
    unfold spec_basePayment, bind.
    change (pow (add (lit 1) (taeg / Qc_of_Z 100 / Qc_of_Z 12)) (Z.pos q))
      with (Ok ((1 + taeg / Qc_of_Z 100 / Qc_of_Z 12) ^ Pos.to_nat q)).
    cbv beta iota.
    match goal with
    | |- truediv ?x ?y = _ => change (truediv x y) with (Qc_truediv x y)
    end.
    unfold Qc_truediv.
    match goal with
    | |- (if Qc_eq_dec ?d _ then _ else _) = _ =>
        destruct (Qc_eq_dec d (Qc_of_Z 0)) as [Hzero | _]
    end.
    + exfalso. revert Hzero.
      apply (growth_minus_one_nonzero _ (Pos.to_nat q) Hr). lia.
    + reflexivity.
Qed.



End ExactSchedule.

(** ** Binary64: what rounding does to the schedule *)

Module Binary64Facts.

Import Binary64.
Local Open Scope float_scope.

Definition french : session_state := {| language := Francais |}.






(** C4, witness: the second month of the default loan. *)
Lemma C4_row_recurrence_witness :
  exists r,
    nth_error (amortization_data 30000 0.003708333333333334 584.870612896008
                 57%Z 0) (Z.to_nat (2 - 1)) = Some r
    /\ month r = 2%Z
    /\ capital_beginning r
       = final_balance 30000 0.003708333333333334 584.870612896008 (2 - 1) 0
    /\ (2%Z = 1%Z -> capital_beginning r = 30000)
    /\ interest_payment r = mul (capital_beginning r) 0.003708333333333334
    /\ principal_payment r = sub 584.870612896008 (interest_payment r)
    /\ final_balance 30000 0.003708333333333334 584.870612896008 2 0
       = clamp (sub (capital_beginning r) (principal_payment r))
    /\ insurance r = 0
    /\ total_payment r = add 584.870612896008 0.
Proof.
  apply (C4_row_recurrence 30000 0.003708333333333334 584.870612896008
           57%Z 0 2%Z).
  lia.
Defined.

(** C6, witness: the default loan with 12.5 a month of insurance. *)
Lemma C6_summary_fields_witness :
  exists ld months ratio,
    calculate_loan french 30000 4.45 57%Z 12.5 = Ok ld
    /\ of_int 57%Z = Ok months
    /\ total_paid ld = mul (monthly_payment ld) months
    /\ total_cost ld = sub (total_paid ld) 30000
    /\ truediv (total_cost ld) 30000 = Ok ratio
    /\ cost_percentage ld = mul ratio (lit 100)
    /\ insurance_total_cost ld = mul 12.5 months.
Proof.
  apply (C6_summary_fields french 30000 4.45 57%Z 12.5
           0.003708333333333334 584.870612896008);
    vm_compute; reflexivity.
Defined.



(** C9, counterexample: in the table of the default loan the
    opening-balance cell of the totals row is the empty string, which is
    the rendering of no number. *)
Lemma C9_counterexample :
  exists ld,
    calculate_loan french 30000 4.45 57%Z 0 = Ok ld
    /\ nth_error (rows (amortization_table ld)) 57
       = Some [CStr "Total"; CStr ""; CStr "30,000.00"; CStr "3,337.62";
               CStr "0.00"; CStr "33,337.62"]
    /\ ~ all_cells_formatted (amortization_table ld).
Proof.
  assert (Hrow :
    match calculate_loan french 30000 4.45 57%Z 0 with
    | Ok ld => nth_error (rows (amortization_table ld)) 57
    | Raise _ => None
    end
    = Some [CStr "Total"; CStr ""; CStr "30,000.00"; CStr "3,337.62";
            CStr "0.00"; CStr "33,337.62"]) by (vm_compute; reflexivity).
  destruct (calculate_loan french 30000 4.45 57%Z 0) as [ld | e] eqn:Hld;
    [ | discriminate Hrow].
  exists ld. split; [reflexivity | ]. split.
  - exact Hrow.
  - destruct (calculate_loan_table _ _ _ _ _ _ Hld)
      as (monthly_rate & base & _ & _ & Htable).
    eapply blank_cell_not_formatted. exact Htable.
Qed.


End Binary64Facts.

(** ** Exact arithmetic: instances of the amended claims *)

Module ExactFacts.

Import Exact ExactSchedule.
Local Open Scope Qc_scope.

Definition french : session_state := {| language := Francais |}.



End ExactFacts.

(** ** Further properties of the engine *)

Section Further.

Context {F : Type} `{Number F}.

(** What a data row holds besides the insurance pass-through. *)
Definition amortization_math (r : row F) : Z * F * F * F :=
  (month r, capital_beginning r, principal_payment r, interest_payment r).

(** X1: the insurance amount is a pass-through. Months, opening balances,
    principal and interest portions and the final balance are the same for
    any two insurance amounts; the insurance only fills its own column and
    is added to the total due. *)
Theorem insurance_is_pass_through
    (principal monthly_rate monthly_payment : F) (duration_months : Z)
    (insurance_amount insurance_amount' : F) :
  map amortization_math
    (amortization_data principal monthly_rate monthly_payment duration_months
       insurance_amount)
  = map amortization_math
      (amortization_data principal monthly_rate monthly_payment
         duration_months insurance_amount')
  /\ final_balance principal monthly_rate monthly_payment duration_months
       insurance_amount
     = final_balance principal monthly_rate monthly_payment duration_months
         insurance_amount'
  /\ Forall (fun r => insurance r = insurance_amount
                      /\ total_payment r = add monthly_payment insurance_amount)
       (amortization_data principal monthly_rate monthly_payment
          duration_months insurance_amount).
Proof.
  rewrite !amortization_data_spec, !final_balance_spec, !map_map.
  split; [apply map_ext; reflexivity | ]. split; [reflexivity | ].
  apply Forall_forall. intros r Hin.
  apply in_map_iff in Hin. destruct Hin as (i & <- & _).
  split; reflexivity.
Qed.

(** X2: with no month to schedule ([duration_months <= 0], which
    [calculate_loan] rejects but [create_amortization_table] accepts) the
    table is the totals row alone, every total being the rendering of 0. *)
Theorem empty_schedule (st : session_state)
    (principal monthly_rate monthly_payment : F) (duration_months : Z)
    (insurance_amount : F) :
  duration_months <= 0 ->
  exists df,
    create_amortization_table st principal monthly_rate monthly_payment
      duration_months insurance_amount = Ok df
    /\ rows df
       = [[CStr "Total"; CStr ""; CStr (format_2f (lit 0));
           CStr (format_2f (lit 0)); CStr (format_2f (lit 0));
           CStr (format_2f (lit 0))]]
    /\ final_balance principal monthly_rate monthly_payment duration_months
         insurance_amount = principal.
Proof.
  intros Hn.
  destruct (create_amortization_table_spec st principal monthly_rate
              monthly_payment duration_months insurance_amount)
    as [header Hspec].
  eexists. split; [exact Hspec | ].
  rewrite final_balance_spec.
  cbn [rows]. rewrite amortization_data_spec.
  replace (Z.to_nat duration_months) with 0%nat by lia.
  split; reflexivity.
Qed.

(** X3: the returned table is rectangular with pairwise distinct column
    labels, in either language: six labels, six cells in every row
    (so that selecting a column by its label is unambiguous). *)
Theorem table_is_rectangular (st : session_state)
    (principal monthly_rate monthly_payment : F) (duration_months : Z)
    (insurance_amount : F) :
  exists df,
    create_amortization_table st principal monthly_rate monthly_payment
      duration_months insurance_amount = Ok df
    /\ NoDup (columns df)
    /\ Forall (fun r => List.length r = List.length (columns df)) (rows df).
Proof.
  assert (Hdistinct : forall a b c d e f : string,
             a <> b -> a <> c -> a <> d -> a <> e -> a <> f ->
             b <> c -> b <> d -> b <> e -> b <> f ->
             c <> d -> c <> e -> c <> f ->
             d <> e -> d <> f -> e <> f ->
             NoDup [a; b; c; d; e; f]).
  { intros. repeat constructor; simpl; intuition congruence. }
  assert (Hrows : forall data : list (row F),
             Forall (fun r : list (cell F) => List.length r = 6%nat)
               (map format_row data ++ [total_row "Total" data])).
  { intros data. apply Forall_app. split.
    - apply Forall_forall. intros r Hin.
      apply in_map_iff in Hin. destruct Hin as (x & <- & _). reflexivity.
    - constructor; [reflexivity | constructor]. }
  unfold create_amortization_table.
  destruct st as [[ | ]]; eexists; (split; [reflexivity | ]);
    (split; [apply Hdistinct; discriminate | apply Hrows]).
Qed.

End Further.

(** *** The dictionary *)

Lemma dict_get_none (d : list (string * entry)) (key : string) :
  dict_get d key = None <-> ~ In key (map fst d).
Proof.
  induction d as [ | [k v] d IH]; simpl.
  - tauto.
  - destruct (dict_get d key) as [v' | ] eqn:Hget.
    + split; [discriminate | ]. intros Hnot. exfalso.
      assert (Hnone : ~ In key (map fst d)) by tauto.
      apply IH in Hnone. discriminate.
    + destruct (String.eqb_spec k key) as [-> | Hne].
      * split; [discriminate | tauto].
      * split; [ | reflexivity]. intros _ [Heq | Hin]; [congruence | ].
        revert Hin. apply IH. reflexivity.
Qed.

(** X4: [get_translation] raises [KeyError] on the key exactly when the key
    is not one of the dictionary's, and returns a text otherwise, whatever
    the language. *)
Theorem get_translation_key_error (st : session_state) (text_key : string) :
  (~ In text_key (map fst translations) ->
   get_translation st text_key = Raise (KeyError text_key))
  /\ (In text_key (map fst translations) ->
      exists text, get_translation st text_key = Ok text).
Proof.
  unfold get_translation.
  destruct (dict_get translations text_key) as [e | ] eqn:Hget.
  - split; [ | eauto]. intros Hnot.
    apply dict_get_none in Hnot. congruence.
  - split; [reflexivity | ]. intros Hin.
    apply dict_get_none in Hget. contradiction.
Qed.

(** X5: the dictionary is keyed by the French text: under the French
    language every key of the dictionary translates to itself. *)
Theorem french_translation_is_the_key (text_key : string) :
  In text_key (map fst translations) ->
  get_translation {| language := Francais |} text_key = Ok text_key.
Proof.
  simpl.
  intros Hin.
  repeat (destruct Hin as [<- | Hin]; [vm_compute; reflexivity | ]).
  contradiction.
Qed.

(** *** Rounding and grouping in the format *)

(** X6: [round_half_even n d] is an integer nearest to [n / d], and the
    even one when [n / d] is halfway between two integers. *)
Theorem round_half_even_nearest (n d : Z) :
  0 <= n -> 0 < d ->
  2 * Z.abs (n - round_half_even n d * d) <= d
  /\ (2 * Z.abs (n - round_half_even n d * d) = d ->
      Z.even (round_half_even n d) = true).
Proof.
  intros Hn Hd. unfold round_half_even.
  pose proof (Z.div_mod n d ltac:(lia)) as Hdiv.
  pose proof (Z.mod_pos_bound n d Hd) as Hmod.
  destruct (Z.compare_spec (2 * (n mod d)) d) as [Heq | Hlt | Hgt].
  - destruct (Z.even (n / d)) eqn:Heven.
    + split; [nia | intros _; exact Heven].
    + split; [nia | intros _].
      rewrite Z.even_add, Heven. reflexivity.
  - split; [nia | intros Habs; nia].
  - split; [nia | intros Habs; nia].
Qed.

Definition is_comma (c : ascii) : bool := Ascii.eqb c ","%char.

Definition remove_commas (s : string) : string :=
  string_of_list_ascii
    (filter (fun c => negb (is_comma c)) (list_ascii_of_string s)).

Lemma insert_commas_filter (l : list ascii) (k : nat) :
  Forall (fun c => is_comma c = false) l ->
  filter (fun c => negb (is_comma c)) (insert_commas l k) = l.
Proof.
  intros Hl. revert k. induction Hl as [ | c l Hc Hl IH]; intros k.
  - reflexivity.
  - simpl.
    destruct k as [ | [ | [ | [ | k]]]]; simpl; rewrite ?Hc; simpl;
      rewrite IH; reflexivity.
Qed.

Lemma remove_commas_with_commas (digits : string) :
  Forall (fun c => is_comma c = false) (list_ascii_of_string digits) ->
  remove_commas (with_commas digits) = digits.
Proof.
  intros Hdigits. unfold remove_commas, with_commas.
  rewrite list_ascii_of_string_of_list_ascii.
  rewrite <- (rev_involutive
                (filter _ (rev (insert_commas
                                  (rev (list_ascii_of_string digits)) 0)))).
  rewrite <- filter_rev, rev_involutive.
  rewrite insert_commas_filter.
  - rewrite rev_involutive. apply string_of_list_ascii_of_string.
  - apply Forall_rev. assumption.
Qed.

(** X7: grouping only inserts separators: taking the commas out of
    [with_commas digits] gives [digits] back, for any text free of commas. *)
Theorem with_commas_keeps_digits (digits : string) :
  Forall (fun c => is_comma c = false) (list_ascii_of_string digits) ->
  remove_commas (with_commas digits) = digits.
Proof.
  apply remove_commas_with_commas.
Qed.

(** ** Further properties in exact arithmetic *)

Module ExactFurther.

Import Exact ExactSchedule.
Local Open Scope Qc_scope.






(** X8: in exact arithmetic every data row splits the payment: principal
    portion + interest portion = base payment, and the total due is
    principal + interest + insurance; this needs no validity of the
    input. *)
Theorem row_splits_the_payment
    (principal monthly_rate monthly_payment : Qc) (duration_months : Z)
    (insurance_amount : Qc) :
  Forall (fun r => principal_payment r + interest_payment r = monthly_payment
                   /\ total_payment r
                      = principal_payment r + interest_payment r + insurance r)
    (amortization_data principal monthly_rate monthly_payment duration_months
       insurance_amount).
Proof.
  rewrite amortization_data_spec. apply Forall_forall. intros r Hin.
  apply in_map_iff in Hin. destruct Hin as (i & <- & _).
  unfold spec_row.
  cbn [principal_payment interest_payment total_payment insurance].
  change (@sub Qc _) with Qcminus. change (@mul Qc _) with Qcmult.
  change (@add Qc _) with Qcplus.
  split; ring.
Qed.



(** X11: in exact arithmetic, on a valid input, every month repays some
    principal and the repayment grows by the factor [1 + monthly rate] from
    one month to the next. *)
Theorem principal_portions_grow (principal taeg : Qc) (duration_months : Z)
    (insurance_amount : Qc) :
  invalid_input principal taeg duration_months = false ->
  exists monthly_rate base,
    spec_monthlyRate taeg = Ok monthly_rate
    /\ spec_basePayment principal monthly_rate duration_months = Ok base
    /\ (forall r,
          In r (amortization_data principal monthly_rate base duration_months
                  insurance_amount) ->
          0 < principal_payment r)
    /\ (forall i r r',
          nth_error (amortization_data principal monthly_rate base
                       duration_months insurance_amount) i = Some r ->
          nth_error (amortization_data principal monthly_rate base
                       duration_months insurance_amount) (S i) = Some r' ->
          principal_payment r' = principal_payment r * (1 + monthly_rate)).
Proof.
  intros Hinv.
  destruct (exact_formula principal taeg duration_months Hinv)
    as (monthly_rate & Hp & Hr & Hn & Hrate & Hbase).
  exists monthly_rate. eexists.
  split; [exact Hrate | ]. split; [exact Hbase | ].
  rewrite amortization_data_spec. split.
  - intros r Hin. apply in_map_iff in Hin. destruct Hin as (i & <- & Hin).
    apply in_seq in Hin.
    apply (principal_portion_pos principal monthly_rate
             (Z.to_nat duration_months) Hp Hr Hn i). lia.
  - intros i r r' Hi Hi'.
    rewrite nth_error_map, nth_error_seq in Hi, Hi'.
    destruct (Nat.ltb_spec i (Z.to_nat duration_months)); [ | discriminate].
    destruct (Nat.ltb_spec (S i) (Z.to_nat duration_months));
      [ | discriminate].
    simpl in Hi, Hi'. injection Hi as <-. injection Hi' as <-.
    unfold spec_row. cbn [principal_payment].
    rewrite (balance_step principal monthly_rate (Z.to_nat duration_months)
               Hp Hr Hn i) by assumption.
    change (@sub Qc _) with Qcminus. change (@mul Qc _) with Qcmult.
    ring.
Qed.

End ExactFurther.

(** ** The presentation helpers around the engine *)

Section Presentation.

Context {F : Type} `{Number F}.

(** *** [highlight_total_row], lines 123-130 *)

Definition grey : string := "background-color: #f0f0f0".

(** The inner [highlight] (lines 125-129); [name] is the index label of the
    row. *)
Definition highlight (df : DataFrame F) (name : Z) (r : list (cell F))
  : list string :=
  let is_total_row := (name =? Z.of_nat (List.length (rows df)) - 1)%Z in
  if is_total_row then repeat grey (List.length r)
  else repeat "" (List.length r).

(** The styles [df.style.apply(highlight, axis=1)] computes, one list per
    row. The frames the application passes carry the default index
    [0, 1, ...]: the empty frame of line 177 and the result of
    [pd.concat(..., ignore_index=True)]. *)
Definition highlight_total_row (df : DataFrame F) : list (list string) :=
  map (fun named => highlight df (fst named) (snd named))
      (combine (range 0 (Z.of_nat (List.length (rows df)))) (rows df)).

(** *** The insurance callbacks, lines 99-111 *)

(** The session-state entries the two callbacks read and write. *)
Record insurance_state : Type := {
  ss_principal : F;
  ss_insurance_amount : F;
  ss_insurance_percentage : F
}.

(** The truth value of a number in an [if]: it is not equal to zero. *)
Definition truthy (x : F) : bool := negb (leb x (lit 0) && leb (lit 0) x).

Definition update_insurance_percentage (s : insurance_state)
  : result insurance_state :=
  if truthy (ss_insurance_amount s) then
    share <- truediv (ss_insurance_amount s) (ss_principal s) ;;
    Ok {| ss_principal := ss_principal s;
          ss_insurance_amount := ss_insurance_amount s;
          ss_insurance_percentage := mul share (lit 100) |}
  else
    Ok {| ss_principal := ss_principal s;
          ss_insurance_amount := ss_insurance_amount s;
          ss_insurance_percentage := lit 0 |}.

Definition update_insurance_amount (s : insurance_state)
  : result insurance_state :=
  if truthy (ss_insurance_percentage s) then
    share <- truediv (ss_insurance_percentage s) (lit 100) ;;
    Ok {| ss_principal := ss_principal s;
          ss_insurance_amount := mul share (ss_principal s);
          ss_insurance_percentage := ss_insurance_percentage s |}
  else
    Ok {| ss_principal := ss_principal s;
          ss_insurance_amount := lit 0;
          ss_insurance_percentage := ss_insurance_percentage s |}.

Lemma nth_error_combine (A B : Type) (l : list A) (l' : list B) (i : nat) :
  nth_error (combine l l') i
  = match nth_error l i, nth_error l' i with
    | Some a, Some b => Some (a, b)
    | _, _ => None
    end.
Proof.
  revert l' i. induction l as [ | a l IH]; intros [ | b l'] [ | i];
    simpl; try reflexivity.
  - destruct (nth_error l i); reflexivity.
  - apply IH.
Qed.

Lemma highlight_total_row_nth (df : DataFrame F) (i : nat)
    (r : list (cell F)) :
  nth_error (rows df) i = Some r ->
  nth_error (highlight_total_row df) i
  = Some (if (S i =? List.length (rows df))%nat
          then repeat grey (List.length r)
          else repeat "" (List.length r)).
Proof.
  intros Hr. unfold highlight_total_row.
  assert (Hi : (i < List.length (rows df))%nat)
    by (apply nth_error_Some; congruence).
  rewrite nth_error_map, nth_error_combine, Hr.
  unfold range. rewrite nth_error_map, nth_error_seq.
  replace (Z.to_nat (Z.of_nat (List.length (rows df)) - 0))
    with (List.length (rows df)) by lia.
  destruct (Nat.ltb_spec i (List.length (rows df))); [ | lia].
  destruct (Nat.eqb_spec (S i) (List.length (rows df))) as [Heq | Hne];
    unfold highlight; cbn [option_map fst snd Nat.add].
  - rewrite (proj2 (Z.eqb_eq _ _)) by lia. reflexivity.
  - rewrite (proj2 (Z.eqb_neq _ _)) by lia. reflexivity.
Qed.

(** X12: on the table [create_amortization_table] returns,
    [highlight_total_row] greys the six cells of the totals row and leaves
    the six cells of every data row unstyled. *)
Theorem highlight_marks_the_totals_row (st : session_state)
    (principal monthly_rate monthly_payment : F) (duration_months : Z)
    (insurance_amount : F) :
  exists df,
    create_amortization_table st principal monthly_rate monthly_payment
      duration_months insurance_amount = Ok df
    /\ highlight_total_row df
       = repeat (repeat "" 6) (Z.to_nat duration_months)
         ++ [repeat grey 6].
Proof.
  destruct (create_amortization_table_spec st principal monthly_rate
              monthly_payment duration_months insurance_amount)
    as [header Hspec].
  eexists. split; [exact Hspec | ].
  set (data := amortization_data principal monthly_rate monthly_payment
                 duration_months insurance_amount).
  set (df := {| columns := header;
                rows := map format_row data ++ [total_row "Total" data] |}).
  assert (Hlen : List.length (rows df) = S (Z.to_nat duration_months)).
  { unfold df. cbn [rows]. rewrite length_app, length_map.
    unfold data. rewrite amortization_data_length. simpl. lia. }
  apply nth_error_ext. intros i.
  destruct (nth_error (rows df) i) as [r | ] eqn:Hr.
  - rewrite (highlight_total_row_nth df i r Hr).
    assert (Hi : (i < S (Z.to_nat duration_months))%nat)
      by (rewrite <- Hlen; apply nth_error_Some; congruence).
    assert (Hsix : List.length r = 6%nat).
    { unfold df in Hr. cbn [rows] in Hr.
      apply nth_error_In in Hr. apply in_app_or in Hr.
      destruct Hr as [Hin | [<- | []]]; [ | reflexivity].
      apply in_map_iff in Hin. destruct Hin as (x & <- & _). reflexivity. }
    rewrite Hsix, Hlen.
    destruct (Nat.eqb_spec (S i) (S (Z.to_nat duration_months)))
      as [Heq | Hne].
    + rewrite nth_error_app2 by (rewrite repeat_length; lia).
      rewrite repeat_length.
      replace (i - Z.to_nat duration_months)%nat with 0%nat by lia.
      reflexivity.
    + rewrite nth_error_app1 by (rewrite repeat_length; lia).
      rewrite nth_error_repeat by lia. reflexivity.
  - apply nth_error_None in Hr. rewrite Hlen in Hr.
    assert (Hstyles : List.length (highlight_total_row df)
                      = S (Z.to_nat duration_months)).
    { unfold highlight_total_row.
      rewrite length_map, length_combine. unfold range.
      rewrite length_map, length_seq. lia. }
    rewrite (proj2 (nth_error_None _ _)) by lia.
    symmetry. apply nth_error_None.
    rewrite length_app, repeat_length. simpl. lia.
Qed.

End Presentation.

(** ** The insurance callbacks *)

Module InsuranceSync.

Import Exact ExactSchedule.
Local Open Scope Qc_scope.

Lemma truthy_exact (x : Qc) : truthy x = true <-> x <> 0.
Proof.
  unfold truthy. change (lit 0) with 0.
  change (@leb Qc _) with Qc_leb. unfold Qc_leb.
  rewrite negb_true_iff, andb_false_iff. split.
  - intros [Hle | Hle] ->; discriminate Hle.
  - intros Hne.
    destruct (Qle_bool x 0) eqn:H1; [ | auto].
    destruct (Qle_bool 0 x) eqn:H2; [ | auto].
    exfalso. apply Hne. apply Qle_bool_iff in H1, H2.
    apply Qcle_antisym; assumption.
Qed.

Lemma truthy_exact_false (x : Qc) : truthy x = false <-> x = 0.
Proof.
  destruct (truthy x) eqn:Ht.
  - apply truthy_exact in Ht. split; [discriminate | contradiction].
  - split; [intros _ | reflexivity].
    destruct (Qc_eq_dec x 0) as [Heq | Hne]; [assumption | ].
    apply truthy_exact in Hne. congruence.
Qed.

Lemma exact_truediv (x y : Qc) : y <> 0 -> truediv x y = Ok (x / y).
Proof.
  intros Hy. change (truediv x y) with (Qc_truediv x y). unfold Qc_truediv.
  destruct (Qc_eq_dec y (Qc_of_Z 0)) as [Heq | _]; [contradiction | ].
  reflexivity.
Qed.

Lemma hundred_nonzero : Qc_of_Z 100 <> 0.
Proof. discriminate. Qed.

Lemma update_insurance_percentage_exact (p a c : Qc) :
  p <> 0 ->
  update_insurance_percentage
    {| ss_principal := p; ss_insurance_amount := a;
       ss_insurance_percentage := c |}
  = Ok {| ss_principal := p; ss_insurance_amount := a;
          ss_insurance_percentage := a / p * Qc_of_Z 100 |}.
Proof.
  intros Hp. unfold update_insurance_percentage.
  cbn [ss_insurance_amount ss_principal].
  destruct (truthy a) eqn:Ha.
  - rewrite exact_truediv by assumption. reflexivity.
  - apply truthy_exact_false in Ha. subst a.
    replace (0 / p * Qc_of_Z 100) with (@lit Qc _ 0); [reflexivity | ].
    change (lit 0) with 0. field; try assumption.
Qed.

Lemma update_insurance_amount_exact (p a c : Qc) :
  update_insurance_amount
    {| ss_principal := p; ss_insurance_amount := a;
       ss_insurance_percentage := c |}
  = Ok {| ss_principal := p; ss_insurance_amount := c / Qc_of_Z 100 * p;
          ss_insurance_percentage := c |}.
Proof.
  unfold update_insurance_amount.
  cbn [ss_insurance_percentage ss_principal].
  destruct (truthy c) eqn:Hc.
  - change (lit 100) with (Qc_of_Z 100).
    rewrite exact_truediv by apply hundred_nonzero. reflexivity.
  - apply truthy_exact_false in Hc. subst c.
    replace (0 / Qc_of_Z 100 * p) with (@lit Qc _ 0); [reflexivity | ].
    change (lit 0) with 0. field; try apply hundred_nonzero.
Qed.

(** X13: in exact arithmetic, with a principal other than zero, deriving
    the percentage from the amount and then the amount from that percentage
    gives the amount back, and leaves the principal alone. *)
Theorem amount_percentage_round_trip (s : insurance_state) :
  ss_principal s <> 0 ->
  exists s1 s2,
    update_insurance_percentage s = Ok s1
    /\ update_insurance_amount s1 = Ok s2
    /\ ss_insurance_amount s2 = ss_insurance_amount s
    /\ ss_insurance_percentage s2 = ss_insurance_percentage s1
    /\ ss_principal s2 = ss_principal s.
Proof.
  intros Hp. destruct s as [p a c]. cbn [ss_principal] in Hp.
  eexists. eexists.
  split; [apply update_insurance_percentage_exact; assumption | ].
  split; [apply update_insurance_amount_exact | ].
  cbn [ss_insurance_amount ss_insurance_percentage ss_principal].
  split; [ | split; reflexivity].
  field; repeat split; (assumption || apply hundred_nonzero).
Qed.

(** X14: in exact arithmetic, with a principal other than zero, deriving
    the amount from the percentage and then the percentage from that amount
    gives the percentage back. *)
Theorem percentage_amount_round_trip (s : insurance_state) :
  ss_principal s <> 0 ->
  exists s1 s2,
    update_insurance_amount s = Ok s1
    /\ update_insurance_percentage s1 = Ok s2
    /\ ss_insurance_percentage s2 = ss_insurance_percentage s
    /\ ss_insurance_amount s2 = ss_insurance_amount s1
    /\ ss_principal s2 = ss_principal s.
Proof.
  intros Hp. destruct s as [p a c]. cbn [ss_principal] in Hp.
  eexists. eexists.
  split; [apply update_insurance_amount_exact | ].
  split; [apply update_insurance_percentage_exact; assumption | ].
  cbn [ss_insurance_amount ss_insurance_percentage ss_principal].
  split; [ | split; reflexivity].
  field; repeat split; (assumption || apply hundred_nonzero).
Qed.

End InsuranceSync.

(** ** The interface's helpers on binary64 *)

Module Interface.

Import Binary64.
Local Open Scope float_scope.

(** *** Conversions between [int] and [float] *)

(** A number of the session state: the widgets hold [int]s, the initial
    value of the years ([57/12], line 175) is a [float]. *)
Inductive pynum : Type :=
| PyInt (z : Z)
| PyFloat (f : float).

(** [a / b] on two [int]s: the exact quotient rounded once to binary64
    (the quotient is scaled to an integer of more than 128 bits whose last
    bit records a non-zero remainder, then rounded to nearest even). *)
Definition int_truediv (a b : Z) : result float :=
  if (b =? 0)%Z then Raise ZeroDivisionError
  else if (a =? 0)%Z then Ok (if (b <? 0)%Z then neg_zero else zero)
  else
    let k := (128 + Z.log2_up (Z.abs b))%Z in
    let n := (Z.abs a * 2 ^ k)%Z in
    let q := (n / Z.abs b)%Z in
    let sticky := if (n mod Z.abs b =? 0)%Z then 0%Z else 1%Z in
    let m := (2 * q + sticky)%Z in
    let signed := if (a * b <? 0)%Z then (- m)%Z else m in
    let f := SF2Prim (binary_normalize prec emax signed (- (k + 1)) false) in
    if is_infinity f then Raise OverflowError else Ok f.

(** [round(x)] on a float: the nearest [int], ties to the even one. *)
Definition float_round (x : float) : result Z :=
  match Prim2SF x with
  | S754_nan => Raise (ValueError "cannot convert float NaN to integer")
  | S754_infinity _ => Raise OverflowError
  | S754_zero _ => Ok 0%Z
  | S754_finite s m e =>
      let magnitude :=
        if (0 <=? e)%Z then (Zpos m * 2 ^ e)%Z
        else round_half_even (Zpos m) (2 ^ (- e)) in
      Ok (if s then (- magnitude)%Z else magnitude)
  end.

(** [int(x)] on a float: truncation towards zero. *)
Definition float_int (x : float) : result Z :=
  match Prim2SF x with
  | S754_nan => Raise (ValueError "cannot convert float NaN to integer")
  | S754_infinity _ => Raise OverflowError
  | S754_zero _ => Ok 0%Z
  | S754_finite s m e =>
      let magnitude :=
        if (0 <=? e)%Z then (Zpos m * 2 ^ e)%Z
        else (Zpos m / 2 ^ (- e))%Z in
      Ok (if s then (- magnitude)%Z else magnitude)
  end.

(** *** The duration callbacks, lines 113-121 *)

(** The two duration entries of the session state; [None] is an absent
    key. *)
Record duration_state : Type := {
  ss_duration_months : option Z;
  ss_duration_years : option pynum
}.

Definition update_duration_months (s : duration_state)
  : result duration_state :=
  match ss_duration_years s with
  | Some (PyInt years) =>
      Ok {| ss_duration_months := Some (years * 12)%Z;
            ss_duration_years := ss_duration_years s |}
  | Some (PyFloat years) =>
      months <- float_int (years * float_of_Z 12) ;;
      Ok {| ss_duration_months := Some months;
            ss_duration_years := ss_duration_years s |}
  | None => Ok s
  end.

Definition update_duration_years (s : duration_state)
  : result duration_state :=
  match ss_duration_months s with
  | Some months =>
      quotient <- int_truediv months 12 ;;
      years <- float_round quotient ;;
      Ok {| ss_duration_months := ss_duration_months s;
            ss_duration_years := Some (PyInt years) |}
  | None => Ok s
  end.

(** *** [display_loan_details], lines 88-97 *)

(** Hundredths rendered without separators. *)
Definition format_cents_plain (negative : bool) (cents : Z) : string :=
  ((if negative then "-" else "")
   ++ decimal (cents / 100)
   ++ "."
   ++ decimal (cents mod 100 / 10)
   ++ decimal (cents mod 10))%string.

(** [f"{x:.2f}"]. *)
Definition float_format_plain_2f (x : float) : string :=
  match Prim2SF x with
  | S754_nan => "nan"
  | S754_infinity s => if s then "-inf" else "inf"
  | S754_zero s => format_cents_plain s 0
  | S754_finite s m e =>
      format_cents_plain s
        (if (0 <=? e)%Z then Zpos m * 2 ^ e * 100
         else round_half_even (Zpos m * 100) (2 ^ (- e)))
  end.

(** [d[key] = value] on a dictionary kept in insertion order. *)
Fixpoint dict_set (d : list (string * string)) (key value : string)
  : list (string * string) :=
  match d with
  | [] => [(key, value)]
  | (k, v) :: d' =>
      if String.eqb k key then (k, value) :: d'
      else (k, v) :: dict_set d' key value
  end.

(** The items of [results], which [st.table] shows. *)
Definition display_loan_details (st : session_state) (ld : loan_data float)
  : result (list (string * string)) :=
  k1 <- get_translation st "Mensualité" ;;
  let v1 := (float_format_2f (monthly_payment ld) ++ " €")%string in
  k2 <- get_translation st "Coût Total" ;;
  let v2 := (float_format_2f (total_cost ld) ++ " €")%string in
  k3 <- get_translation st "Total Remboursé" ;;
  let v3 := (float_format_2f (total_paid ld) ++ " €")%string in
  k4 <- get_translation st "Coût en % du Prêt" ;;
  let v4 := (float_format_plain_2f (cost_percentage ld) ++ " %")%string in
  k5 <- get_translation st "Coût Assurance Total" ;;
  let v5 := (float_format_2f (insurance_total_cost ld) ++ " €")%string in
  Ok (dict_set (dict_set (dict_set (dict_set (dict_set [] k1 v1) k2 v2)
                            k3 v3) k4 v4) k5 v5).

End Interface.

(** ** Properties of the interface's helpers *)

Module InterfaceFacts.

Import Binary64 Interface.
Local Open Scope float_scope.

Lemma In_range (a b m : Z) : (a <= m < b)%Z -> In m (range a b).
Proof.
  intros Hm. unfold range. apply in_map_iff.
  exists (Z.to_nat (m - a)). split; [lia | ].
  apply in_seq. lia.
Qed.

(** The years computed from a number of months. *)
Definition years_of_months (months : Z) : result Z :=
  quotient <- int_truediv months 12 ;;
  float_round quotient.

Definition years_checked (months : Z) : bool :=
  match years_of_months months with
  | Ok years => (years =? round_half_even months 12)%Z
  | Raise _ => false
  end.

Lemma years_checked_all : forallb years_checked (range 1 601) = true.
Proof. vm_compute. reflexivity. Qed.

Lemma years_of_months_rounds (months : Z) :
  (1 <= months <= 600)%Z ->
  years_of_months months = Ok (round_half_even months 12).
Proof.
  intros Hm.
  pose proof years_checked_all as Hall.
  rewrite forallb_forall in Hall.
  specialize (Hall months (In_range 1 601 months ltac:(lia))).
  unfold years_checked in Hall.
  destruct (years_of_months months) as [years | e]; [ | discriminate].
  apply Z.eqb_eq in Hall. congruence.
Qed.

(** X15: for every duration from 1 to 600 months (the 50 years the years
    widget allows), [update_duration_years] stores the number of months
    divided by 12 and rounded to the nearest integer, ties to even, as an
    [int]; the months are left as they were. *)
Theorem update_duration_years_rounds (months : Z) (years : option pynum) :
  (1 <= months <= 600)%Z ->
  update_duration_years
    {| ss_duration_months := Some months; ss_duration_years := years |}
  = Ok {| ss_duration_months := Some months;
          ss_duration_years := Some (PyInt (round_half_even months 12)) |}.
Proof.
  intros Hm. unfold update_duration_years. cbn [ss_duration_months].
  pose proof (years_of_months_rounds months Hm) as Hyears.
  unfold years_of_months in Hyears.
  destruct (int_truediv months 12) as [quotient | e]; [ | discriminate].
  cbv beta iota delta [bind] in Hyears |- *. rewrite Hyears. reflexivity.
Qed.

(** X16: a whole number of years from 1 to 50 survives the round trip
    through the months: [update_duration_months] stores [12 * years], and
    [update_duration_years] then gives the years back. *)
Theorem years_months_round_trip (years : Z) (months : option Z) :
  (1 <= years <= 50)%Z ->
  exists s1 s2,
    update_duration_months
      {| ss_duration_months := months;
         ss_duration_years := Some (PyInt years) |} = Ok s1
    /\ update_duration_years s1 = Ok s2
    /\ ss_duration_months s1 = Some (years * 12)%Z
    /\ ss_duration_months s2 = Some (years * 12)%Z
    /\ ss_duration_years s2 = Some (PyInt years).
Proof.
  intros Hy. eexists. eexists.
  split; [reflexivity | ].
  unfold update_duration_years. cbn [ss_duration_months ss_duration_years].
  pose proof (years_of_months_rounds (years * 12) ltac:(lia)) as Hyears.
  unfold years_of_months in Hyears.
  destruct (int_truediv (years * 12) 12) as [quotient | e]; [ | discriminate].
  cbv beta iota delta [bind] in Hyears |- *. rewrite Hyears.
  split; [reflexivity | ]. split; [reflexivity | ]. split; [reflexivity | ].
  cbn [ss_duration_years]. do 2 f_equal.
  unfold round_half_even.
  rewrite Z.div_mul, Z.mod_mul by lia. reflexivity.
Qed.

(** An absent key leaves the state as it is: neither duration callback
    writes anything, nor fails, when the entry it reads is missing. *)
Lemma duration_callbacks_skip_missing_keys (s : duration_state) :
  (ss_duration_years s = None -> update_duration_months s = Ok s)
  /\ (ss_duration_months s = None -> update_duration_years s = Ok s).
Proof.
  unfold update_duration_months, update_duration_years.
  split; intros ->; reflexivity.
Qed.

(** *** The insurance callbacks on floats *)

Lemma float_hundred_nonzero :
  PrimFloat.eqb (float_of_Z 100) (float_of_Z 0) = false.
Proof. vm_compute. reflexivity. Qed.

(** X17: on floats, [update_insurance_amount] never fails (it divides by
    the literal 100), while [update_insurance_percentage] raises
    [ZeroDivisionError] exactly when the amount is not zero and the
    principal is zero. *)
Theorem insurance_callbacks_failures (s : insurance_state) :
  is_ok (update_insurance_amount s) = true
  /\ (update_insurance_percentage s = Raise ZeroDivisionError
      <-> truthy (ss_insurance_amount s) = true
          /\ PrimFloat.eqb (ss_principal s) 0 = true)
  /\ (forall e, update_insurance_percentage s = Raise e
                -> e = ZeroDivisionError).
Proof.
  split; [ | split].
  - unfold update_insurance_amount.
    destruct (truthy (ss_insurance_percentage s)); [ | reflexivity].
    change (truediv (ss_insurance_percentage s) (lit 100))
      with (float_truediv (ss_insurance_percentage s) (float_of_Z 100)).
    unfold float_truediv. rewrite float_hundred_nonzero. reflexivity.
  - unfold update_insurance_percentage.
    destruct (truthy (ss_insurance_amount s)).
    + change (truediv (ss_insurance_amount s) (ss_principal s))
        with (float_truediv (ss_insurance_amount s) (ss_principal s)).
      unfold float_truediv.
      change (float_of_Z 0) with 0.
      destruct (PrimFloat.eqb (ss_principal s) 0).
      * split; [auto | reflexivity].
      * split; [discriminate | intros [_ Habs]; discriminate Habs].
    + split; [discriminate | intros [Habs _]; discriminate Habs].
  - intros e. unfold update_insurance_percentage.
    destruct (truthy (ss_insurance_amount s)); [ | discriminate].
    change (truediv (ss_insurance_amount s) (ss_principal s))
      with (float_truediv (ss_insurance_amount s) (ss_principal s)).
    unfold float_truediv.
    destruct (PrimFloat.eqb (ss_principal s) (float_of_Z 0));
      cbv beta iota delta [bind]; intros Heq; inversion Heq; reflexivity.
Qed.

End InterfaceFacts.

(** ** The summary shown to the user *)

Module DisplayFacts.

Import Binary64 Interface.

Lemma list_ascii_of_string_app (a b : string) :
  list_ascii_of_string (a ++ b)%string
  = list_ascii_of_string a ++ list_ascii_of_string b.
Proof.
  induction a as [ | c a IH]; simpl; [reflexivity | rewrite IH; reflexivity].
Qed.

Lemma string_of_list_ascii_app (l l' : list ascii) :
  string_of_list_ascii (l ++ l')
  = (string_of_list_ascii l ++ string_of_list_ascii l')%string.
Proof.
  induction l as [ | c l IH]; simpl; [reflexivity | rewrite IH; reflexivity].
Qed.

Lemma remove_commas_app (a b : string) :
  remove_commas (a ++ b)%string
  = (remove_commas a ++ remove_commas b)%string.
Proof.
  unfold remove_commas.
  rewrite list_ascii_of_string_app, filter_app, string_of_list_ascii_app.
  reflexivity.
Qed.

Lemma remove_commas_none (s : string) :
  Forall (fun c => is_comma c = false) (list_ascii_of_string s) ->
  remove_commas s = s.
Proof.
  intros Hs. unfold remove_commas.
  rewrite <- (string_of_list_ascii_of_string s) at 2. f_equal.
  induction Hs as [ | c l Hc Hl IH]; simpl; [reflexivity | ].
  rewrite Hc. simpl. rewrite IH. reflexivity.
Qed.

Lemma uint_has_no_comma (d : Decimal.uint) :
  Forall (fun c => is_comma c = false)
    (list_ascii_of_string (NilEmpty.string_of_uint d)).
Proof.
  induction d; simpl; constructor; (reflexivity || assumption).
Qed.

Lemma decimal_has_no_comma (n : Z) :
  Forall (fun c => is_comma c = false) (list_ascii_of_string (decimal n)).
Proof.
  unfold decimal, NilZero.string_of_uint.
  destruct (N.to_uint (Z.to_N n)) eqn:Hd;
    try (rewrite <- Hd; apply uint_has_no_comma).
  repeat constructor.
Qed.

Lemma remove_commas_format_cents (negative : bool) (cents : Z) :
  remove_commas (format_cents negative cents)
  = format_cents_plain negative cents.
Proof.
  unfold format_cents, format_cents_plain.
  rewrite !remove_commas_app.
  rewrite remove_commas_with_commas by apply decimal_has_no_comma.
  rewrite !(remove_commas_none (decimal _)) by apply decimal_has_no_comma.
  destruct negative; reflexivity.
Qed.

(** X18: the percentage of the summary is rendered as the amounts are, less
    the thousands separators: for every float, [f"{x:.2f}"] is
    [f"{x:,.2f}"] with the commas taken out. *)
Theorem plain_format_is_grouped_format_without_commas (x : float) :
  float_format_plain_2f x = remove_commas (float_format_2f x).
Proof.
  unfold float_format_plain_2f, float_format_2f.
  destruct (Prim2SF x) as [s | [ | ] | | s m e];
    try reflexivity; symmetry; apply remove_commas_format_cents.
Qed.

(** X19: whatever the loan and the language, [display_loan_details] shows
    five entries under five distinct labels, in this order: monthly
    payment, total cost, total paid (amounts, with the euro sign), cost as a
    percentage (ungrouped, with the percent sign), total insurance cost. *)
Theorem display_shows_five_entries (st : session_state)
    (ld : loan_data float) :
  exists items,
    display_loan_details st ld = Ok items
    /\ map snd items
       = [(float_format_2f (monthly_payment ld) ++ " €")%string;
          (float_format_2f (total_cost ld) ++ " €")%string;
          (float_format_2f (total_paid ld) ++ " €")%string;
          (float_format_plain_2f (cost_percentage ld) ++ " %")%string;
          (float_format_2f (insurance_total_cost ld) ++ " €")%string]
    /\ NoDup (map fst items).
Proof.
  destruct st as [[ | ]]; eexists;
    (split; [reflexivity | ]); (split; [reflexivity | ]);
    repeat constructor; simpl; intuition discriminate.
Qed.

End DisplayFacts.

(** ** Instances of the further properties *)

Module Instances.

Import Binary64 Exact ExactSchedule ExactFurther InsuranceSync.
Import Interface InterfaceFacts.

Definition french : session_state := {| language := Francais |}.

(** X2 at zero months, on floats. *)
Lemma empty_schedule_witness :
  exists df,
    create_amortization_table french 30000%float 0.003708333333333334%float
      584.870612896008%float 0 0%float = Ok df
    /\ rows df
       = [[CStr "Total"; CStr ""; CStr (format_2f (lit 0 : float));
           CStr (format_2f (lit 0 : float)); CStr (format_2f (lit 0 : float));
           CStr (format_2f (lit 0 : float))]]
    /\ final_balance 30000%float 0.003708333333333334%float
         584.870612896008%float 0 0%float = 30000%float.
Proof.
  apply (empty_schedule french 30000%float 0.003708333333333334%float
           584.870612896008%float 0 0%float).
  lia.
Defined.

(** X5 at the key of the month column. *)
Lemma french_translation_is_the_key_witness :
  get_translation {| language := Francais |} "Mois" = Ok "Mois".
Proof.
  apply (french_translation_is_the_key "Mois").
  vm_compute. tauto.
Defined.

(** X6 at a tie: 25 hundredths over 10 round to the even 2. *)
Lemma round_half_even_nearest_witness :
  2 * Z.abs (25 - round_half_even 25 10 * 10) <= 10
  /\ (2 * Z.abs (25 - round_half_even 25 10 * 10) = 10 ->
      Z.even (round_half_even 25 10) = true).
Proof.
  apply (round_half_even_nearest 25 10); lia.
Defined.

(** X7 at seven digits. *)
Lemma with_commas_keeps_digits_witness :
  remove_commas (with_commas "1234567") = "1234567".
Proof.
  apply (with_commas_keeps_digits "1234567").
  repeat constructor.
Defined.



(** X11 at 1000 over 3 months at 12 %. *)
Lemma principal_portions_grow_witness :
  exists monthly_rate base,
    spec_monthlyRate (Qc_of_Z 12) = Ok monthly_rate
    /\ spec_basePayment (Qc_of_Z 1000) monthly_rate 3 = Ok base
    /\ (forall r,
          In r (amortization_data (Qc_of_Z 1000) monthly_rate base 3
                  (Qc_of_Z 0)) ->
          (0 < principal_payment r)%Qc)
    /\ (forall i r r',
          nth_error (amortization_data (Qc_of_Z 1000) monthly_rate base 3
                       (Qc_of_Z 0)) i = Some r ->
          nth_error (amortization_data (Qc_of_Z 1000) monthly_rate base 3
                       (Qc_of_Z 0)) (S i) = Some r' ->
          principal_payment r'
          = (principal_payment r * (1 + monthly_rate))%Qc).
Proof.
  apply (principal_portions_grow (Qc_of_Z 1000) (Qc_of_Z 12) 3 (Qc_of_Z 0)).
  vm_compute. reflexivity.
Defined.

Definition insured : insurance_state :=
  {| ss_principal := Qc_of_Z 30000;
     ss_insurance_amount := Qc_of_Z 15;
     ss_insurance_percentage := Qc_of_Z 0 |}.

(** X13 at 15 a month on 30000. *)
Lemma amount_percentage_round_trip_witness :
  exists s1 s2,
    update_insurance_percentage insured = Ok s1
    /\ update_insurance_amount s1 = Ok s2
    /\ ss_insurance_amount s2 = ss_insurance_amount insured
    /\ ss_insurance_percentage s2 = ss_insurance_percentage s1
    /\ ss_principal s2 = ss_principal insured.
Proof.
  apply (amount_percentage_round_trip insured).
  discriminate.
Defined.

(** X14 on the same state. *)
Lemma percentage_amount_round_trip_witness :
  exists s1 s2,
    update_insurance_amount insured = Ok s1
    /\ update_insurance_percentage s1 = Ok s2
    /\ ss_insurance_percentage s2 = ss_insurance_percentage insured
    /\ ss_insurance_amount s2 = ss_insurance_amount s1
    /\ ss_principal s2 = ss_principal insured.
Proof.
  apply (percentage_amount_round_trip insured).
  discriminate.
Defined.

(** X15 at the default 57 months. *)
Lemma update_duration_years_rounds_witness :
  update_duration_years
    {| ss_duration_months := Some 57;
       ss_duration_years := Some (PyFloat (57 / 12)%float) |}
  = Ok {| ss_duration_months := Some 57;
          ss_duration_years := Some (PyInt (round_half_even 57 12)) |}.
Proof.
  apply (update_duration_years_rounds 57 (Some (PyFloat (57 / 12)%float))).
  lia.
Defined.

(** X16 at 5 years. *)
Lemma years_months_round_trip_witness :
  exists s1 s2,
    update_duration_months
      {| ss_duration_months := Some 57;
         ss_duration_years := Some (PyInt 5) |} = Ok s1
    /\ update_duration_years s1 = Ok s2
    /\ ss_duration_months s1 = Some (5 * 12)
    /\ ss_duration_months s2 = Some (5 * 12)
    /\ ss_duration_years s2 = Some (PyInt 5).
Proof.
  apply (years_months_round_trip 5 (Some 57)).
  lia.
Defined.

End Instances.
